(** * register_functions_as_routes_fastapi: a shallow embedding

    The Python module [register_functions_as_routes_fastapi.py] scans a
    module for coroutine functions and attaches them to the first
    [APIRouter] it finds.  This file embeds its six functions together
    with the parts of the Python runtime they call ([str] methods, the
    one [re] pattern, [inspect.getsource], [inspect.getmembers],
    [APIRouter.add_api_route]) and proves what the specification says
    about them.

    Conventions.
    - A Python [str] is a list of characters, one [ascii] per code point;
      the model therefore covers text whose code points are below 256.
      The character tables ([isspace], [isword]) are those of CPython on
      that range.
    - Exceptions are values of [exn]; a computation that may raise returns
      a [result].
    - Router objects live in a store indexed by object identity; the
      registrar threads the store explicitly. *)

From Stdlib Require Import Ascii NArith ZArith Lia Bool.
From stdpp Require Import gmap list.

Set Default Proof Using "Type".

(** ** Python strings *)

Definition str := list ascii.

Inductive str_literal := LitNil | LitCons (c : ascii) (s : str_literal).

Definition str_literal_parse (bs : list Byte.byte) : str_literal :=
  foldr (fun b acc => LitCons (ascii_of_byte b) acc) LitNil bs.

Fixpoint str_literal_print (s : str_literal) : list Byte.byte :=
  match s with
  | LitNil => []
  | LitCons c s => byte_of_ascii c :: str_literal_print s
  end.

Declare Scope str_scope.
Delimit Scope str_scope with str.
Bind Scope str_scope with str.
#[warning="-via-type-remapping,-via-type-mismatch"]
String Notation str str_literal_parse str_literal_print
  (via str_literal mapping [[nil] => LitNil, [cons] => LitCons]) : str_scope.
Open Scope str_scope.

Module Str.

Definition ord (c : ascii) : N := N_of_ascii c.

(** [Py_UNICODE_ISSPACE] below U+0100: TAB..CR, FS..US, SPACE, NEL, NBSP. *)
Definition isspace (c : ascii) : bool :=
  let n := ord c in
  ((9 <=? n) && (n <=? 13) || (28 <=? n) && (n <=? 32)
   || (n =? 133) || (n =? 160))%N.

(** The line boundaries of [str.splitlines] below U+0100:
    LF, VT, FF, CR, FS, GS, RS, NEL (and the pair CR LF). *)
Definition islinebreak (c : ascii) : bool :=
  let n := ord c in
  ((10 <=? n) && (n <=? 13) || (28 <=? n) && (n <=? 30) || (n =? 133))%N.

(** [s.startswith(p)] *)
Fixpoint startswith (s p : str) {struct p} : bool :=
  match p, s with
  | [], _ => true
  | _ :: _, [] => false
  | a :: p', b :: s' => Ascii.eqb a b && startswith s' p'
  end.

(** [s.find(sub)]: the lowest index where [sub] occurs, or -1. *)
Fixpoint find_from (s sub : str) (i : Z) : Z :=
  if startswith s sub then i
  else match s with
       | [] => (-1)%Z
       | _ :: s' => find_from s' sub (i + 1)%Z
       end.

Definition find (s sub : str) : Z := find_from s sub 0.

(** [s[:i]], with Python's treatment of a negative bound. *)
Definition slice_to (s : str) (i : Z) : str :=
  if (i <? 0)%Z then take (Z.to_nat (Z.of_nat (length s) + i)) s
  else take (Z.to_nat i) s.

(** [s.lstrip()], [s.rstrip()], [s.strip()] *)
Fixpoint lstrip (s : str) : str :=
  match s with
  | [] => []
  | c :: s' => if isspace c then lstrip s' else s
  end.

Definition rstrip (s : str) : str := rev (lstrip (rev s)).

Definition strip (s : str) : str := lstrip (rstrip s).

(** [s.lstrip(chars)] *)
Fixpoint lstrip_chars (s chars : str) : str :=
  match s with
  | [] => []
  | c :: s' =>
      if existsb (Ascii.eqb c) chars then lstrip_chars s' chars else s
  end.

(** [s.splitlines()]: a line ends at a line boundary, CR LF counts as
    one boundary, and no empty line follows the last boundary. *)
Fixpoint splitlines (s : str) : list str :=
  match s with
  | [] => []
  | c :: s' =>
      if islinebreak c then
        [] :: match s' with
              | d :: s'' =>
                  if Ascii.eqb c "013"%char && Ascii.eqb d "010"%char
                  then splitlines s'' else splitlines s'
              | [] => []
              end
      else match splitlines s' with
           | [] => [[c]]
           | l :: ls => (c :: l) :: ls
           end
  end.

(** [s.split(sep)] for a separator of one character. *)
Fixpoint split (s : str) (sep : ascii) : list str :=
  match s with
  | [] => [[]]
  | c :: s' =>
      if Ascii.eqb c sep then [] :: split s' sep
      else match split s' sep with
           | [] => [[c]]
           | l :: ls => (c :: l) :: ls
           end
  end.

(** [s.replace(old, new)]: occurrences are replaced from the left and
    do not overlap; [skip] counts the characters of an occurrence that
    are still to be passed over. *)
Fixpoint replace_from (s old new : str) (skip : nat) : str :=
  match s with
  | [] => []
  | c :: s' =>
      match skip with
      | S k => replace_from s' old new k
      | O =>
          if startswith s old
          then new ++ replace_from s' old new (length old - 1)
          else c :: replace_from s' old new 0
      end
  end.

Definition replace (s old new : str) : str :=
  match old with
  | [] => new ++ flat_map (fun c => c :: new) s
  | _ :: _ => replace_from s old new 0
  end.

(** [s.upper()].  Lower-case letters a..z and the Latin-1 letters with
    a capital in the same range are shifted; sharp s becomes SS.  Micro
    sign and y-diaeresis, whose capitals lie beyond U+00FF, are kept. *)
Definition upper_char (c : ascii) : str :=
  let n := ord c in
  if ((97 <=? n) && (n <=? 122))%N then [ascii_of_N (n - 32)]
  else if (n =? 223)%N then "SS"
  else if ((224 <=? n) && (n <=? 254) && negb (n =? 247))%N
       then [ascii_of_N (n - 32)]
  else [c].

Definition upper (s : str) : str := flat_map upper_char s.

(** Comparison of strings by code point, as [<=] on [str]. *)
Fixpoint leb (a b : str) : bool :=
  match a, b with
  | [], _ => true
  | _ :: _, [] => false
  | x :: a', y :: b' =>
      if (ord x <? ord y)%N then true
      else if (ord y <? ord x)%N then false
      else leb a' b'
  end.

End Str.

(** ** The fragment of [re] used by the decorator parser

    A backtracking matcher in continuation-passing style: [run r s g k]
    matches [r] at the start of [s], with the groups [g] captured so far,
    and hands the rest of the text and the groups to [k]; [None] makes the
    caller try its next alternative.  Repetition and option are greedy. *)

Module Re.

Inductive regex :=
| Chr (p : ascii -> bool)
| Cat (r1 r2 : regex)
| Star (r : regex)
| Opt (r : regex)
| Group (n : nat) (r : regex).

(** Greedy repetition of [step], which matches the body once.  An
    iteration that consumes nothing is not repeated; [fuel] bounds the
    number of iterations by the length of the text. *)
Fixpoint star_loop
    (step : str -> gmap nat str ->
            (str -> gmap nat str -> option (gmap nat str)) ->
            option (gmap nat str))
    (k : str -> gmap nat str -> option (gmap nat str))
    (fuel : nat) (s : str) (g : gmap nat str) : option (gmap nat str) :=
  match fuel with
  | O => k s g
  | S fuel' =>
      match step s g (fun s' g' =>
                        if length s' <? length s
                        then star_loop step k fuel' s' g' else None) with
      | Some g' => Some g'
      | None => k s g
      end
  end.

Fixpoint run (r : regex) (s : str) (g : gmap nat str)
    (k : str -> gmap nat str -> option (gmap nat str)) {struct r}
    : option (gmap nat str) :=
  match r with
  | Chr p =>
      match s with
      | c :: s' => if p c then k s' g else None
      | [] => None
      end
  | Cat r1 r2 => run r1 s g (fun s' g' => run r2 s' g' k)
  | Star r1 => star_loop (run r1) k (length s) s g
  | Opt r1 =>
      match run r1 s g k with
      | Some g' => Some g'
      | None => k s g
      end
  | Group n r1 =>
      run r1 s g (fun s' g' =>
                    k s' (<[n := take (length s - length s') s]> g'))
  end.

(** [re.match(r, s)]: anchored at the start, the rest of [s] is free. *)
Definition re_match (r : regex) (s : str) : option (gmap nat str) :=
  run r s ∅ (fun _ g => Some g).

(** [\w] on [str]: [Py_UNICODE_ISALNUM] or underscore, below U+0100. *)
Definition isword (c : ascii) : bool :=
  let n := Str.ord c in
  ((48 <=? n) && (n <=? 57) || (65 <=? n) && (n <=? 90)
   || (97 <=? n) && (n <=? 122) || (n =? 95)
   || (n =? 170) || (n =? 178) || (n =? 179) || (n =? 181)
   || (n =? 185) || (n =? 186) || (188 <=? n) && (n <=? 190)
   || (192 <=? n) && (n <=? 214) || (216 <=? n) && (n <=? 246)
   || (248 <=? n) && (n <=? 255))%N.

(** [[\w\.]] *)
Definition isword_or_dot (c : ascii) : bool :=
  isword c || Ascii.eqb c "."%char.

(** [.] without DOTALL: anything but LF. *)
Definition isdot (c : ascii) : bool := negb (Ascii.eqb c "010"%char).

(** The pattern of [parse_decorator_line]: group 1 is a word character
    followed by word characters and dots; then white space; then,
    optionally, group 2: an opening parenthesis, group 3 (any characters
    but LF) and a closing parenthesis. *)
Definition decorator_pattern : regex :=
  Cat (Group 1 (Cat (Chr isword) (Star (Chr isword_or_dot))))
    (Cat (Star (Chr Str.isspace))
       (Opt (Group 2
               (Cat (Chr (Ascii.eqb "("%char))
                  (Cat (Group 3 (Star (Chr isdot)))
                     (Chr (Ascii.eqb ")"%char))))))).

End Re.

(** ** Decorator records *)

(** What [parse_decorator_line] returns: a [SimpleNamespace] with the
    attributes [name] and [args], or a plain pair. *)
Inductive decorator :=
| SimpleNamespace (name : str) (args : list str)
| Tuple (first : str) (second : list str).

(** [parse_decorator_line(line)] *)
Definition parse_decorator_line (line : str) : decorator :=
  let deco := Str.lstrip_chars line "@" in
  match Re.re_match Re.decorator_pattern deco with
  | None => Tuple deco []
  | Some groups =>
      let name := default [] (groups !! 1) in
      let args := groups !! 3 in
      let args_list :=
        match args with
        | Some ((_ :: _) as a) => map Str.strip (Str.split a ","%char)
        | _ => []
        end in
      SimpleNamespace name args_list
  end.

Definition dq : ascii := "034"%char.

(** A string literal of the source text: [s] between double quotes. *)
Definition quoted (s : str) : str := dq :: s ++ [dq].

(** ** Exceptions and results *)

Inductive exn :=
| StopIteration                      (* [next] on an exhausted iterator *)
| OSError                            (* [inspect.getsource]: no source *)
| AttributeError                     (* attribute access on a value without it *)
| RouterError (what : str).          (* raised inside [add_api_route] *)

Inductive result (A : Type) :=
| Ok (a : A)
| Raise (e : exn).

Arguments Ok {A} a.
Arguments Raise {A} e.

Notation "'do' x <- e ; k" :=
  (match e with Ok x => k | Raise err => Raise err end)
  (at level 10, x name, e at level 100, k at level 200, only parsing).

(** ** Functions, modules, routers *)

(** A coroutine function object: [__name__], [__module__], and what
    [inspect.getsource] finds for it ([None]: no source). *)
Record function := {
  fn_name : str;
  fn_module : str;
  fn_source : option str
}.

(** The values a module attribute may hold: a reference to an [APIRouter]
    object, a coroutine function, anything else. *)
Inductive value :=
| APIRouter (ref : nat)
| CoroutineFunction (fn : function)
| Object (repr : str).

(** A module: [__name__] and [vars(module)] in insertion order. *)
Record module := {
  mod_name : str;
  mod_vars : list (str * value)
}.

(** One call [add_api_route(path, endpoint, methods=..., *args, **kwargs)]
    as the router records it. *)
Record route := {
  route_path : str;
  route_endpoint : function;
  route_methods : list str;
  route_args : list str;
  route_kwargs : list (str * str)
}.

(** The routes of every router object, by reference. *)
Abbreviation store := (gmap nat (list route)).

(** ** Decorator extractor *)

Definition getsource (fn : function) : result str :=
  match fn_source fn with
  | Some source => Ok source
  | None => Raise OSError
  end.

(** [get_decorator_lines(fn)] *)
Definition get_decorator_lines (fn : function) : result (list str) :=
  do source <- getsource fn;
  let func_index := Str.find source "def " in
  let lines := Str.splitlines (Str.strip (Str.slice_to source func_index)) in
  Ok (map Str.strip
        (List.filter (fun line => Str.startswith (Str.strip line) "@") lines)).

(** [get_decorators(fn)] *)
Definition get_decorators (fn : function) : result (list decorator) :=
  do lines <- get_decorator_lines fn;
  Ok (map parse_decorator_line lines).

(** ** Router finder *)

(** [d[k] = v] on a dict kept in insertion order. *)
Fixpoint dict_set {A} (d : list (str * A)) (k : str) (v : A) : list (str * A) :=
  match d with
  | [] => [(k, v)]
  | (k', v') :: d' =>
      if decide (k' = k) then (k', v) :: d' else (k', v') :: dict_set d' k v
  end.

(** [find_routers_in_module(module)] *)
Definition find_routers_in_module (m : module) : list (str * nat) :=
  foldl (fun routers '(name, obj) =>
           match obj with
           | APIRouter ref => dict_set routers name ref
           | _ => routers
           end) [] (mod_vars m).

(** ** Members of a module *)

Definition iscoroutinefunction (v : value) : option function :=
  match v with
  | CoroutineFunction fn => Some fn
  | _ => None
  end.

Fixpoint insert_by_name {A} (x : str * A) (l : list (str * A)) : list (str * A) :=
  match l with
  | [] => [x]
  | y :: l' => if Str.leb x.1 y.1 then x :: l else y :: insert_by_name x l'
  end.

Definition sort_by_name {A} (l : list (str * A)) : list (str * A) :=
  foldr insert_by_name [] l.

(** [inspect.getmembers(module, inspect.iscoroutinefunction)]: the
    attributes that hold a coroutine function, sorted by name. *)
Definition getmembers (m : module) : list (str * function) :=
  sort_by_name
    (omap (fun '(name, v) =>
             match iscoroutinefunction v with
             | Some fn => Some (name, fn)
             | None => None
             end) (mod_vars m)).

(** ** Route registrar *)

(** [d.name] *)
Definition attr_name (d : decorator) : result str :=
  match d with
  | SimpleNamespace name _ => Ok name
  | Tuple _ _ => Raise AttributeError
  end.

(** [any(d.name.startswith(router_name) for d in decorators)] *)
Fixpoint any_name_startswith (decorators : list decorator) (router_name : str)
    : result bool :=
  match decorators with
  | [] => Ok false
  | d :: rest =>
      do name <- attr_name d;
      if Str.startswith name router_name then Ok true
      else any_name_startswith rest router_name
  end.

(** [next(iter(d.items()))] *)
Definition next_item {A} (d : list (str * A)) : result (str * A) :=
  match d with
  | [] => Raise StopIteration
  | item :: _ => Ok item
  end.

(** The default of the parameter [methods] of
    [register_functions_as_routes]. *)
Definition default_methods : option (list str) := Some ["get"].

Section Registrar.

(** [APIRouter.add_api_route] belongs to the framework: whether it
    raises on a given call is a parameter of the development. *)
Variable add_api_route_raises : route -> option exn.

Definition add_api_route (router : nat) (rt : route) (σ : store)
    : result unit * store :=
  match add_api_route_raises rt with
  | Some e => (Raise e, σ)
  | None => (Ok tt, <[router := σ !!! router ++ [rt]]> σ)
  end.

(** The route that [auto_route] asks the router to add. *)
Definition route_for (handler : function) (methods : option (list str))
    (args : list str) (kwargs : list (str * str)) : route :=
  let methods := match methods with None => ["get"] | Some ms => ms end in
  let path := "/" ++ Str.replace (fn_name handler) "_" "-" in
  {| route_path := path;
     route_endpoint := handler;
     route_methods := map Str.upper methods;
     route_args := args;
     route_kwargs := kwargs |}.

(** [auto_route(router, handler, methods, *args, **kwargs)] *)
Definition auto_route (router : nat) (handler : function)
    (methods : option (list str)) (args : list str)
    (kwargs : list (str * str)) (σ : store) : result unit * store :=
  add_api_route router (route_for handler methods args kwargs) σ.

(** The condition of the [if] in the loop of
    [register_functions_as_routes], with the decorator inspection that
    precedes it. *)
Definition eligible (m : module) (router_name : str)
    (member : str * function) : result bool :=
  let '(name, fn) := member in
  do decorators <- get_decorators fn;
  do has_fastapi_decorator <- any_name_startswith decorators router_name;
  Ok (bool_decide (fn_module fn = mod_name m)
      && negb has_fastapi_decorator
      && negb (Str.startswith name "noroute_")).

(** One iteration of the loop. *)
Definition register_member (m : module) (router_name : str) (router : nat)
    (methods : option (list str)) (args : list str)
    (kwargs : list (str * str)) (member : str * function) (σ : store)
    : result unit * store :=
  match eligible m router_name member with
  | Raise e => (Raise e, σ)
  | Ok true => auto_route router member.2 methods args kwargs σ
  | Ok false => (Ok tt, σ)
  end.

(** The loop: the first exception ends it. *)
Fixpoint register_members (m : module) (router_name : str) (router : nat)
    (methods : option (list str)) (args : list str)
    (kwargs : list (str * str)) (members : list (str * function))
    (σ : store) : result unit * store :=
  match members with
  | [] => (Ok tt, σ)
  | member :: rest =>
      match register_member m router_name router methods args kwargs
              member σ with
      | (Ok _, σ') =>
          register_members m router_name router methods args kwargs rest σ'
      | (Raise e, σ') => (Raise e, σ')
      end
  end.

(** [register_functions_as_routes(module, methods, *args, **kwargs)] *)
Definition register_functions_as_routes (m : module)
    (methods : option (list str)) (args : list str)
    (kwargs : list (str * str)) (σ : store) : result unit * store :=
  match next_item (find_routers_in_module m) with
  | Raise e => (Raise e, σ)
  | Ok (router_name, router) =>
      register_members m router_name router methods args kwargs
        (getmembers m) σ
  end.

End Registrar.

(** ** A module used in the examples *)

Definition lf : ascii := "010"%char.

Definition fetch_a : function :=
  {| fn_name := "fetch_a";
     fn_module := "app.views";
     fn_source := Some ("async def fetch_a():" ++ [lf] ++ "    return 1" ++ [lf]) |}.

Definition noroute_fetch_b : function :=
  {| fn_name := "noroute_fetch_b";
     fn_module := "app.views";
     fn_source :=
       Some ("async def noroute_fetch_b():" ++ [lf] ++ "    return 2" ++ [lf]) |}.

Definition views : module :=
  {| mod_name := "app.views";
     mod_vars := [("__name__", Object "app.views");
                  ("router", APIRouter 0);
                  ("noroute_fetch_b", CoroutineFunction noroute_fetch_b);
                  ("fetch_a", CoroutineFunction fetch_a)] |}.

Definition accept_all : route -> option exn := fun _ => None.

Definition x_y_z : function :=
  {| fn_name := "x_y_z";
     fn_module := "app.views";
     fn_source := Some ("async def x_y_z():" ++ [lf] ++ "    return 0" ++ [lf]) |}.

(** A function that already carries a route decorator of [router2]. *)
Definition listed : function :=
  {| fn_name := "listed";
     fn_module := "app.views";
     fn_source :=
       Some ("@router2.get(" ++ quoted "/listed" ++ ")" ++ [lf]
             ++ "async def listed():" ++ [lf] ++ "    return 3" ++ [lf]) |}.

(** A function built at run time: [inspect.getsource] finds nothing. *)
Definition noroute_synth : function :=
  {| fn_name := "noroute_synth"; fn_module := "other"; fn_source := None |}.

Definition naming : module :=
  {| mod_name := "app.views";
     mod_vars := [("router", APIRouter 0);
                  ("x_y_z", CoroutineFunction x_y_z);
                  ("listed", CoroutineFunction listed)] |}.

Definition synthetic : module :=
  {| mod_name := "app.views";
     mod_vars := [("router", APIRouter 0);
                  ("x_y_z", CoroutineFunction x_y_z);
                  ("noroute_synth", CoroutineFunction noroute_synth);
                  ("fetch_a", CoroutineFunction fetch_a)] |}.

Definition no_router : module :=
  {| mod_name := "app.views";
     mod_vars := [("fetch_a", CoroutineFunction fetch_a);
                  ("limit", Object "10")] |}.

(** A router that refuses the path [/x-y-z]. *)
Definition refuse_x_y_z : route -> option exn :=
  fun rt =>
    if bool_decide (route_path rt = "/x-y-z")
    then Some (RouterError "invalid path") else None.

Definition three : module :=
  {| mod_name := "app.views";
     mod_vars := [("zeta", CoroutineFunction
                     {| fn_name := "zeta"; fn_module := "app.views";
                        fn_source := Some "async def zeta(): pass" |});
                  ("x_y_z", CoroutineFunction x_y_z);
                  ("router", APIRouter 0);
                  ("fetch_a", CoroutineFunction fetch_a)] |}.

(** A function whose decorator is a parenthesized expression. *)
Definition traced : function :=
  {| fn_name := "traced";
     fn_module := "app.views";
     fn_source :=
       Some ("@(trace)" ++ [lf] ++ "async def traced():" ++ [lf]
             ++ "    return 4" ++ [lf]) |}.

Definition tracing : module :=
  {| mod_name := "app.views";
     mod_vars := [("router", APIRouter 0);
                  ("traced", CoroutineFunction traced)] |}.

(** The one route that a call on [views] adds with the default methods. *)
Definition fetch_a_route : route :=
  {| route_path := "/fetch-a";
     route_endpoint := fetch_a;
     route_methods := ["GET"];
     route_args := [];
     route_kwargs := [] |}.

(** ** Vocabulary of the statements *)

(** The shape that the pattern expects of a decorator name: a word
    character followed by word characters and dots. *)
Definition dotted_identifier (name : str) : bool :=
  match name with
  | [] => false
  | c :: rest => Re.isword c && forallb Re.isword_or_dot rest
  end.

(** [step] of a repeated character class, with the fuel removed: take the
    longest run first, then give characters back one at a time. *)
Fixpoint star_chr (p : ascii -> bool)
    (k : str -> gmap nat str -> option (gmap nat str))
    (s : str) (g : gmap nat str) : option (gmap nat str) :=
  match s with
  | c :: s' =>
      if p c then
        match star_chr p k s' g with
        | Some g' => Some g'
        | None => k s g
        end
      else k s g
  | [] => k s g
  end.

(** An underscore becomes a hyphen, any other character is kept. *)
Definition hyphenate (c : ascii) : ascii :=
  if Ascii.eqb c "_"%char then "-"%char else c.

(** The member passes the test of the loop: no exception, condition true. *)
Definition registers (m : module) (router_name : str)
    (member : str * function) : bool :=
  match eligible m router_name member with
  | Ok true => true
  | _ => false
  end.

(** An iteration that ends without an exception. *)
Definition passes (raises : route -> option exn) (m : module)
    (router_name : str) (methods : option (list str)) (args : list str)
    (kwargs : list (str * str)) (member : str * function) : Prop :=
  eligible m router_name member = Ok false
  \/ (eligible m router_name member = Ok true
      /\ raises (route_for member.2 methods args kwargs) = None).

(** An iteration that ends with the exception [e]. *)
Definition fails (raises : route -> option exn) (m : module)
    (router_name : str) (methods : option (list str)) (args : list str)
    (kwargs : list (str * str)) (member : str * function) (e : exn) : Prop :=
  eligible m router_name member = Raise e
  \/ (eligible m router_name member = Ok true
      /\ raises (route_for member.2 methods args kwargs) = Some e).

(** The text after a run of [p]: empty, or a character outside [p]. *)
Definition stops (p : ascii -> bool) (rest : str) : Prop :=
  match rest with
  | [] => True
  | c :: _ => p c = false
  end.

(** [sep.join(pieces)] for a separator of one character. *)
Definition join (sep : ascii) (pieces : list str) : str :=
  match pieces with
  | [] => []
  | piece :: rest => piece ++ flat_map (fun q => sep :: q) rest
  end.

(** The lines of [text] that begin with the marker once stripped, each
    stripped, in the order of the text. *)
Definition marked_lines (text : str) : list str :=
  List.filter (fun line => Str.startswith line "@")
    (map Str.strip (Str.splitlines text)).

(** [lines'] is [lines] with white space, and lines of white space,
    added at the end. *)
Inductive trailing_space : list str -> list str -> Prop :=
| trailing_nil blank :
    Forall (fun l => forallb Str.isspace l = true) blank ->
    trailing_space [] blank
| trailing_last l e blank :
    forallb Str.isspace e = true ->
    Forall (fun l => forallb Str.isspace l = true) blank ->
    trailing_space [l] ((l ++ e) :: blank)
| trailing_cons l lines lines' :
    trailing_space lines lines' ->
    trailing_space (l :: lines) (l :: lines').

(** ** Further examples *)

(** A function defined in another module and imported into [mixed]. *)
Definition imported : function :=
  {| fn_name := "imported";
     fn_module := "lib.helpers";
     fn_source := Some ("async def imported():" ++ [lf] ++ "    return 5" ++ [lf]) |}.

Definition mixed : module :=
  {| mod_name := "app.views";
     mod_vars := [("imported", CoroutineFunction imported);
                  ("limit", Object "10");
                  ("router", APIRouter 0);
                  ("fetch_a", CoroutineFunction fetch_a);
                  ("admin", APIRouter 1)] |}.

Definition tab : ascii := "009"%char.

(** A function whose keyword is followed by a tab: its source has no
    occurrence of the keyword followed by a space. *)
Definition tabbed : function :=
  {| fn_name := "tabbed";
     fn_module := "app.views";
     fn_source :=
       Some ("@cache" ++ [lf] ++ "async" ++ [tab] ++ "def" ++ [tab]
             ++ "tabbed():" ++ [lf] ++ [tab] ++ "return" ++ [tab] ++ "6" ++ [lf]) |}.

(** The number of occurrences of [c] in [s]. *)
Definition count_char (c : ascii) (s : str) : nat :=
  length (List.filter (Ascii.eqb c) s).

(** What [find_routers_in_module] keeps of an attribute. *)
Definition router_item (item : str * value) : option (str * nat) :=
  match item.2 with
  | APIRouter ref => Some (item.1, ref)
  | _ => None
  end.

(** The continuation [k] leaves group [n] as it finds it. *)
Definition keeps (n : nat)
    (k : str -> gmap nat str -> option (gmap nat str)) : Prop :=
  forall s g g', k s g = Some g' -> g' !! n = g !! n.

(** [r] has no group numbered [n]. *)
Fixpoint no_group (n : nat) (r : Re.regex) : Prop :=
  match r with
  | Re.Chr _ => True
  | Re.Cat r1 r2 => no_group n r1 /\ no_group n r2
  | Re.Star r1 => no_group n r1
  | Re.Opt r1 => no_group n r1
  | Re.Group i r1 => i <> n /\ no_group n r1
  end.

(** Names in ascending order, each before all that follow it. *)
Fixpoint ascending {A} (l : list (str * A)) : Prop :=
  match l with
  | [] => True
  | x :: l' => Forall (fun y => Str.leb x.1 y.1 = true) l' /\ ascending l'
  end.

(** * Properties *)

(** ** The model on concrete inputs *)

Example splitlines_ex :
  Str.splitlines ("@a" ++ ["013"%char; "010"%char] ++ "b" ++ ["010"%char])
  = ["@a"; "b"].
Proof. reflexivity. Qed.

Example parse_router_get :
  parse_decorator_line
    ("@router.get(" ++ quoted "/custom" ++ ", tags=[" ++ quoted "x" ++ "])")
  = SimpleNamespace "router.get"
      [quoted "/custom"; "tags=[" ++ quoted "x" ++ "]"].
Proof. vm_compute. reflexivity. Qed.

Example parse_bare : parse_decorator_line "@staticmethod" = SimpleNamespace "staticmethod" [].
Proof. vm_compute. reflexivity. Qed.

Example parse_unmatched : parse_decorator_line "@(trace)" = Tuple "(trace)" [].
Proof. vm_compute. reflexivity. Qed.

Example parse_trailing : parse_decorator_line "@a.b  (x, y) # c)" = SimpleNamespace "a.b" ["x"; "y) # c"].
Proof. vm_compute. reflexivity. Qed.

Example views_members :
  getmembers views = [("fetch_a", fetch_a); ("noroute_fetch_b", noroute_fetch_b)].
Proof. reflexivity. Qed.

Example views_registered :
  (register_functions_as_routes accept_all views default_methods [] [] ∅).2 !!! 0
  = [{| route_path := "/fetch-a"; route_endpoint := fetch_a;
        route_methods := ["GET"]; route_args := []; route_kwargs := [] |}].
Proof. vm_compute. reflexivity. Qed.

(** ** Strings *)

Lemma replace_from_char s a b :
  Str.replace_from s [a] [b] 0
  = map (fun c => if Ascii.eqb c a then b else c) s.
Proof.
  induction s as [|c s IH]; [done|].
  cbn [Str.replace_from Str.startswith map length Nat.sub app].
  rewrite IH.
  destruct (Ascii.eqb_spec a c) as [->|Hne]; simpl.
  - by rewrite Ascii.eqb_refl.
  - destruct (Ascii.eqb_spec c a) as [->|_]; done.
Qed.

Lemma replace_underscore s : Str.replace s "_" "-" = map hyphenate s.
Proof. apply (replace_from_char s "_"%char "-"%char). Qed.

Lemma hyphenate_no_underscore c : hyphenate c <> "_"%char.
Proof.
  unfold hyphenate. destruct (Ascii.eqb_spec c "_"%char); [done|auto].
Qed.

(** ** Sorting the members *)

Lemma insert_by_name_perm {A} (x : str * A) l : insert_by_name x l ≡ₚ x :: l.
Proof.
  induction l as [|y l IH]; [done|]. simpl.
  destruct (Str.leb x.1 y.1); [done|].
  rewrite IH. apply Permutation_swap.
Qed.

Lemma sort_by_name_perm {A} (l : list (str * A)) : sort_by_name l ≡ₚ l.
Proof.
  induction l as [|x l IH]; [done|]. simpl.
  by rewrite insert_by_name_perm, IH.
Qed.

Lemma getmembers_elem m name fn :
  (name, fn) ∈ getmembers m <-> (name, CoroutineFunction fn) ∈ mod_vars m.
Proof.
  unfold getmembers. rewrite sort_by_name_perm, list_elem_of_omap. split.
  - intros [[n v] [Hin Heq]]. destruct v; simplify_eq/=. done.
  - intros Hin. exists (name, CoroutineFunction fn). done.
Qed.

(** ** The loop of the registrar *)

Section Loop.

Variable raises : route -> option exn.
Variables (m : module) (router_name : str) (router : nat).
Variables (methods : option (list str)) (args : list str).
Variable kwargs : list (str * str).

Local Abbreviation loop := (register_members raises m router_name router methods args kwargs).
Local Abbreviation body := (register_member raises m router_name router methods args kwargs).
Local Abbreviation added :=
  (fun members : list (str * function) =>
     map (fun member : str * function => route_for member.2 methods args kwargs)
       (List.filter (registers m router_name) members)).

Lemma register_member_passes member σ :
  passes raises m router_name methods args kwargs member ->
  exists σ', body member σ = (Ok tt, σ')
    /\ σ' !!! router = σ !!! router ++ added [member]
    /\ (forall r, r <> router -> σ' !! r = σ !! r).
Proof.
  unfold passes, register_member, registers, auto_route, add_api_route.
  intros [H|[H Hr]]; simpl; rewrite H.
  - exists σ. by rewrite app_nil_r.
  - rewrite Hr. eexists. split; [done|]. split.
    + by rewrite lookup_total_insert_eq.
    + intros r Hne. by rewrite lookup_insert_ne.
Qed.

Lemma register_member_fails member σ e :
  fails raises m router_name methods args kwargs member e ->
  body member σ = (Raise e, σ).
Proof.
  unfold fails, register_member, auto_route, add_api_route.
  intros [H|[H Hr]]; rewrite H; [done|]. by rewrite Hr.
Qed.

Lemma register_member_cases member :
  passes raises m router_name methods args kwargs member
  \/ exists e, fails raises m router_name methods args kwargs member e.
Proof.
  unfold passes, fails.
  destruct (eligible m router_name member) as [[]|e] eqn:H; eauto.
  destruct (raises (route_for member.2 methods args kwargs)) eqn:Hr; eauto.
Qed.

Lemma register_members_app pre post σ :
  loop (pre ++ post) σ
  = match loop pre σ with
    | (Ok _, σ') => loop post σ'
    | (Raise e, σ') => (Raise e, σ')
    end.
Proof.
  revert σ. induction pre as [|x pre IH]; intros σ; [done|]. simpl.
  destruct (body x σ) as [[[]|e] σ']; [apply IH|done].
Qed.

Lemma register_members_passes pre σ :
  Forall (passes raises m router_name methods args kwargs) pre ->
  exists σ', loop pre σ = (Ok tt, σ')
    /\ σ' !!! router = σ !!! router ++ added pre
    /\ (forall r, r <> router -> σ' !! r = σ !! r).
Proof.
  intros Hall. revert σ.
  induction Hall as [|x pre Hx _ IH]; intros σ.
  - exists σ. by rewrite app_nil_r.
  - destruct (register_member_passes x σ Hx) as (σ1 & Hb & Hr & Ho).
    destruct (IH σ1) as (σ2 & Hl & Hr2 & Ho2).
    exists σ2. simpl. rewrite Hb. split; [done|]. split.
    + rewrite Hr2, Hr. simpl.
      destruct (registers m router_name x); simpl; by rewrite <- app_assoc.
    + intros r Hne. by rewrite Ho2, Ho.
Qed.

Lemma passes_split (members : list (str * function)) :
  exists pre post,
    members = pre ++ post
    /\ Forall (passes raises m router_name methods args kwargs) pre
    /\ match post with
       | [] => True
       | member :: _ =>
           exists e, fails raises m router_name methods args kwargs member e
       end.
Proof.
  induction members as [|x members (pre & post & -> & Hall & Hpost)].
  - by exists [], [].
  - destruct (register_member_cases x) as [Hx|Hx].
    + exists (x :: pre), post. by repeat split; [constructor|].
    + exists [], (x :: pre ++ post). by repeat split.
Qed.

(** Every run of the loop splits the members into those it went
    through and, when an exception ended it, the member that raised. *)
Lemma register_members_run members σ :
  exists pre post σ',
    members = pre ++ post
    /\ Forall (passes raises m router_name methods args kwargs) pre
    /\ σ' !!! router = σ !!! router ++ added pre
    /\ (forall r, r <> router -> σ' !! r = σ !! r)
    /\ match post with
       | [] => loop members σ = (Ok tt, σ')
       | member :: _ =>
           exists e, fails raises m router_name methods args kwargs member e
                     /\ loop members σ = (Raise e, σ')
       end.
Proof.
  destruct (passes_split members) as (pre & post & -> & Hall & Hpost).
  destruct (register_members_passes pre σ Hall) as (σ' & Hl & Hr & Ho).
  exists pre, post, σ'. repeat (split; [done|]).
  rewrite register_members_app, Hl.
  destruct post as [|x post]; [done|].
  destruct Hpost as [e He]. exists e. split; [done|]. simpl.
  by rewrite (register_member_fails x σ' e He).
Qed.

End Loop.

Lemma register_functions_as_routes_run raises m methods args kwargs σ
    router_name router routers :
  find_routers_in_module m = (router_name, router) :: routers ->
  exists pre post σ',
    getmembers m = pre ++ post
    /\ Forall (passes raises m router_name methods args kwargs) pre
    /\ σ' !!! router
       = σ !!! router
         ++ map (fun member : str * function =>
                   route_for member.2 methods args kwargs)
              (List.filter (registers m router_name) pre)
    /\ (forall r, r <> router -> σ' !! r = σ !! r)
    /\ match post with
       | [] =>
           register_functions_as_routes raises m methods args kwargs σ
           = (Ok tt, σ')
       | member :: _ =>
           exists e, fails raises m router_name methods args kwargs member e
             /\ register_functions_as_routes raises m methods args kwargs σ
                = (Raise e, σ')
       end.
Proof.
  intros Hfind. unfold register_functions_as_routes. rewrite Hfind. simpl.
  apply register_members_run.
Qed.

(** ** Path derivation *)

Lemma route_for_path handler methods args kwargs :
  route_path (route_for handler methods args kwargs)
  = "/" ++ map hyphenate (fn_name handler).
Proof. unfold route_for. cbn [route_path]. by rewrite replace_underscore. Qed.

(** C1. Every route that the registrar adds to the first router of the
    module belongs to a coroutine member that passed the test of the loop,
    and its path is a slash followed by the [__name__] of that function in
    which each underscore is replaced by a hyphen and every other
    character is kept. *)
Theorem registered_path_hyphenated raises m methods args kwargs σ
    router_name router routers :
  find_routers_in_module m = (router_name, router) :: routers ->
  exists new,
    (register_functions_as_routes raises m methods args kwargs σ).2 !!! router
    = σ !!! router ++ new
    /\ Forall (fun rt =>
                route_path rt = "/" ++ map hyphenate (fn_name (route_endpoint rt))
                /\ exists name,
                    (name, route_endpoint rt) ∈ getmembers m
                    /\ eligible m router_name (name, route_endpoint rt) = Ok true)
         new.
Proof.
  intros Hfind.
  destruct (register_functions_as_routes_run raises m methods args kwargs σ
              _ _ _ Hfind) as (pre & post & σ' & Hmem & _ & Hr & _ & Hrun).
  eexists. split.
  - destruct post as [|x post]; [by rewrite Hrun|].
    destruct Hrun as (e & _ & ->). exact Hr.
  - apply Forall_forall. intros rt Hin.
    apply list_elem_of_In, in_map_iff in Hin as ([name fn] & <- & Hin).
    apply filter_In in Hin as [Hin Hreg].
    split; [apply route_for_path|]. exists name. cbn [route_for route_endpoint snd]. split.
    + rewrite Hmem. apply elem_of_app. left. by apply list_elem_of_In.
    + unfold registers in Hreg.
      by destruct (eligible m router_name (name, fn)) as [[]|].
Qed.

Lemma registered_path_hyphenated_witness :
  find_routers_in_module naming = [("router", 0)]
  /\ exists new,
      (register_functions_as_routes accept_all naming default_methods [] [] ∅).2
        !!! 0 = (∅ : store) !!! 0 ++ new
      /\ Forall (fun rt =>
                  route_path rt
                  = "/" ++ map hyphenate (fn_name (route_endpoint rt))
                  /\ exists name,
                      (name, route_endpoint rt) ∈ getmembers naming
                      /\ eligible naming "router" (name, route_endpoint rt)
                         = Ok true)
           new.
Proof.
  split; [reflexivity|].
  apply (registered_path_hyphenated accept_all naming default_methods [] [] ∅
           "router" 0 []).
  reflexivity.
Defined.

Example x_y_z_registered :
  (register_functions_as_routes accept_all naming default_methods [] [] ∅).2 !!! 0
  = [{| route_path := "/x-y-z"; route_endpoint := x_y_z;
        route_methods := ["GET"]; route_args := []; route_kwargs := [] |}].
Proof. vm_compute. reflexivity. Qed.

(** ** Eligibility *)

Lemma any_name_startswith_false decorators router_name :
  any_name_startswith decorators router_name = Ok false ->
  forall name args,
    SimpleNamespace name args ∈ decorators ->
    Str.startswith name router_name = false.
Proof.
  induction decorators as [|d ds IH]; intros Hany name args Hin.
  - by apply elem_of_nil in Hin.
  - simpl in Hany. destruct d as [n a|]; simpl in Hany; [|done].
    destruct (Str.startswith n router_name) eqn:Hn; [done|].
    apply elem_of_cons in Hin as [Heq|Hin]; [by simplify_eq|by eapply IH].
Qed.

Lemma eligible_true m router_name name fn :
  eligible m router_name (name, fn) = Ok true ->
  exists decorators,
    get_decorators fn = Ok decorators
    /\ any_name_startswith decorators router_name = Ok false
    /\ fn_module fn = mod_name m
    /\ Str.startswith name "noroute_" = false.
Proof.
  unfold eligible. intros H.
  destruct (get_decorators fn) as [ds|]; [|done]. exists ds.
  destruct (any_name_startswith ds router_name) as [has|]; [|done].
  injection H as H.
  apply andb_true_iff in H as [H Hname].
  apply andb_true_iff in H as [Hmod Hhas].
  apply bool_decide_eq_true in Hmod.
  apply negb_true_iff in Hhas, Hname. by subst has.
Qed.

Lemma registers_true m router_name member :
  registers m router_name member = true ->
  eligible m router_name member = Ok true.
Proof.
  unfold registers. by destruct (eligible m router_name member) as [[]|].
Qed.

(** An iteration that does not pass the test leaves the store as it is. *)
Lemma register_member_skip raises m router_name router methods args kwargs
    member σ :
  eligible m router_name member <> Ok true ->
  (register_member raises m router_name router methods args kwargs member σ).2
  = σ.
Proof.
  unfold register_member.
  by destruct (eligible m router_name member) as [[]|].
Qed.

(** The routes added by a call, traced back to the members. *)
Lemma registered_routes raises m methods args kwargs σ
    router_name router routers :
  find_routers_in_module m = (router_name, router) :: routers ->
  exists new,
    (register_functions_as_routes raises m methods args kwargs σ).2 !!! router
    = σ !!! router ++ new
    /\ forall rt, rt ∈ new ->
         exists name fn,
           (name, CoroutineFunction fn) ∈ mod_vars m
           /\ eligible m router_name (name, fn) = Ok true
           /\ rt = route_for fn methods args kwargs.
Proof.
  intros Hfind.
  destruct (register_functions_as_routes_run raises m methods args kwargs σ
              _ _ _ Hfind) as (pre & post & σ' & Hmem & _ & Hr & _ & Hrun).
  eexists. split.
  - destruct post as [|x post]; [by rewrite Hrun|].
    destruct Hrun as (e & _ & ->). exact Hr.
  - intros rt Hin.
    apply list_elem_of_In, in_map_iff in Hin as ([name fn] & <- & Hin).
    apply filter_In in Hin as [Hin Hreg].
    exists name, fn. split; [|split; [by apply registers_true|done]].
    apply getmembers_elem. rewrite Hmem.
    apply elem_of_app. left. by apply list_elem_of_In.
Qed.

(** C2. A coroutine member whose attribute name begins with [noroute_]
    adds nothing to the store in its iteration, whatever its decorators
    and its defining module; and a function bound only under such names
    is the endpoint of none of the routes a call adds. *)
Theorem noroute_prefix_never_registered raises m methods args kwargs σ
    router_name router :
  (forall name fn,
      Str.startswith name "noroute_" = true ->
      (register_member raises m router_name router methods args kwargs
         (name, fn) σ).2 = σ)
  /\ (forall routers fn,
        find_routers_in_module m = (router_name, router) :: routers ->
        (forall name,
            (name, CoroutineFunction fn) ∈ mod_vars m ->
            Str.startswith name "noroute_" = true) ->
        exists new,
          (register_functions_as_routes raises m methods args kwargs σ).2
            !!! router = σ !!! router ++ new
          /\ Forall (fun rt => route_endpoint rt <> fn) new).
Proof.
  split.
  - intros name fn Hname. apply register_member_skip. intros Hel.
    apply eligible_true in Hel as (_ & _ & _ & _ & Hno). congruence.
  - intros routers fn Hfind Hnames.
    destruct (registered_routes raises m methods args kwargs σ _ _ _ Hfind)
      as (new & Hnew & Hfrom).
    exists new. split; [done|]. apply Forall_forall. intros rt Hin Hfn.
    destruct (Hfrom rt Hin) as (name & fn' & Hvar & Hel & ->).
    cbn [route_for route_endpoint] in Hfn. subst fn'.
    apply eligible_true in Hel as (_ & _ & _ & _ & Hno).
    specialize (Hnames name Hvar). congruence.
Qed.

Lemma noroute_prefix_never_registered_witness :
  (register_member accept_all views "router" 0 default_methods [] []
     ("noroute_fetch_b", noroute_fetch_b) ∅).2 = ∅
  /\ exists new,
      (register_functions_as_routes accept_all views default_methods [] [] ∅).2
        !!! 0 = (∅ : store) !!! 0 ++ new
      /\ Forall (fun rt => route_endpoint rt <> noroute_fetch_b) new.
Proof.
  destruct (noroute_prefix_never_registered accept_all views default_methods
              [] [] ∅ "router" 0) as [Hstep Hcall].
  split.
  - apply Hstep. reflexivity.
  - apply (Hcall []); [reflexivity|].
    intros name Hin. apply list_elem_of_In in Hin.
    unfold views, fetch_a, noroute_fetch_b in Hin. cbn [mod_vars In] in Hin.
    destruct Hin as [H|[H|[H|[H|[]]]]]; try discriminate H.
    by injection H as <-.
Defined.

(** ** No router in the module *)

Lemma find_routers_step_none routers (vars : list (str * value)) :
  (forall name v, (name, v) ∈ vars -> forall ref, v <> APIRouter ref) ->
  foldl (fun routers '(name, obj) =>
           match obj with
           | APIRouter ref => dict_set routers name ref
           | _ => routers
           end) routers vars = routers.
Proof.
  revert routers. induction vars as [|[name v] vars IH]; intros routers H.
  - done.
  - simpl. destruct v as [ref| |].
    + exfalso. by apply (H name (APIRouter ref) ltac:(left) ref).
    + apply IH. intros n v Hin. apply (H n v). by right.
    + apply IH. intros n v Hin. apply (H n v). by right.
Qed.

(** C3. When no attribute of the module holds a router, the router finder
    returns the empty mapping, and the registrar raises [StopIteration]
    and leaves the store as it found it. *)
Theorem no_router_stop_iteration m :
  (forall name v, (name, v) ∈ mod_vars m -> forall ref, v <> APIRouter ref) ->
  find_routers_in_module m = []
  /\ forall raises methods args kwargs (σ : store),
      register_functions_as_routes raises m methods args kwargs σ
      = (Raise StopIteration, σ).
Proof.
  intros Hno.
  assert (Hfind : find_routers_in_module m = [])
    by (by apply find_routers_step_none).
  split; [done|]. intros raises methods args kwargs σ.
  unfold register_functions_as_routes. by rewrite Hfind.
Qed.

Lemma no_router_stop_iteration_witness :
  find_routers_in_module no_router = []
  /\ forall raises methods args kwargs (σ : store),
      register_functions_as_routes raises no_router methods args kwargs σ
      = (Raise StopIteration, σ).
Proof.
  apply (no_router_stop_iteration no_router).
  intros name v Hin ref ->. apply list_elem_of_In in Hin.
  unfold no_router in Hin. cbn [mod_vars In] in Hin.
  destruct Hin as [H|[H|[]]]; discriminate H.
Defined.

(** ** Functions that already carry a route *)

Lemma get_decorators_lines fn lines :
  get_decorator_lines fn = Ok lines ->
  get_decorators fn = Ok (map parse_decorator_line lines).
Proof. unfold get_decorators. by intros ->. Qed.

(** C4. A function one of whose decorator lines parses to a name that
    starts with the attribute name of the first router adds nothing to the
    store in its iteration, and is the endpoint of none of the routes a
    call adds.  The test is on the characters of the names alone. *)
Theorem routed_function_not_registered raises m methods args kwargs σ
    router_name router fn lines line name args' :
  get_decorator_lines fn = Ok lines ->
  line ∈ lines ->
  parse_decorator_line line = SimpleNamespace name args' ->
  Str.startswith name router_name = true ->
  (forall attr,
      (register_member raises m router_name router methods args kwargs
         (attr, fn) σ).2 = σ)
  /\ (forall routers,
        find_routers_in_module m = (router_name, router) :: routers ->
        exists new,
          (register_functions_as_routes raises m methods args kwargs σ).2
            !!! router = σ !!! router ++ new
          /\ Forall (fun rt => route_endpoint rt <> fn) new).
Proof.
  intros Hlines Hline Hparse Hstart.
  assert (Hnot : forall attr, eligible m router_name (attr, fn) <> Ok true).
  { intros attr Hel.
    apply eligible_true in Hel as (ds & Hds & Hany & _).
    rewrite (get_decorators_lines _ _ Hlines) in Hds. injection Hds as <-.
    assert (Hin : SimpleNamespace name args' ∈ map parse_decorator_line lines).
    { rewrite <- Hparse. by apply list_elem_of_fmap_2. }
    pose proof (any_name_startswith_false _ _ Hany _ _ Hin). congruence. }
  split.
  - intros attr. by apply register_member_skip.
  - intros routers Hfind.
    destruct (registered_routes raises m methods args kwargs σ _ _ _ Hfind)
      as (new & Hnew & Hfrom).
    exists new. split; [done|]. apply Forall_forall. intros rt Hin Hfn.
    destruct (Hfrom rt Hin) as (attr & fn' & _ & Hel & ->).
    cbn [route_for route_endpoint] in Hfn. subst fn'. by eapply Hnot.
Qed.

Lemma routed_function_not_registered_witness :
  (forall attr,
      (register_member accept_all naming "router" 0 default_methods [] []
         (attr, listed) ∅).2 = ∅)
  /\ (forall routers,
        find_routers_in_module naming = ("router", 0) :: routers ->
        exists new,
          (register_functions_as_routes accept_all naming default_methods
             [] [] ∅).2 !!! 0 = (∅ : store) !!! 0 ++ new
          /\ Forall (fun rt => route_endpoint rt <> listed) new).
Proof.
  apply (routed_function_not_registered accept_all naming default_methods
           [] [] ∅ "router" 0 listed
           ["@router2.get(" ++ quoted "/listed" ++ ")"]
           ("@router2.get(" ++ quoted "/listed" ++ ")")
           "router2.get" [quoted "/listed"]).
  - vm_compute. reflexivity.
  - left.
  - vm_compute. reflexivity.
  - reflexivity.
Defined.

(** ** Methods *)

Lemma register_functions_as_routes_members raises m methods args kwargs σ
    router_name router routers :
  find_routers_in_module m = (router_name, router) :: routers ->
  register_functions_as_routes raises m methods args kwargs σ
  = register_members raises m router_name router methods args kwargs
      (getmembers m) σ.
Proof. intros Hfind. unfold register_functions_as_routes. by rewrite Hfind. Qed.

(** C7. When a call returns, the routes it added to the first router are,
    in the order of the members, one for each member that passed the test,
    with every name of [methods] in upper case (and [get] when [methods]
    is [None]).  On the module [views], whose coroutine functions are
    [fetch_a] and [noroute_fetch_b], a call with the default methods adds
    the single route [/fetch-a] with the method [GET]. *)
Theorem registered_under_upper_methods :
  (forall raises m methods args kwargs (σ σ' : store) router_name router routers,
      find_routers_in_module m = (router_name, router) :: routers ->
      register_functions_as_routes raises m methods args kwargs σ = (Ok tt, σ') ->
      σ' !!! router
      = σ !!! router
        ++ map (fun member : str * function =>
                  {| route_path := "/" ++ map hyphenate (fn_name member.2);
                     route_endpoint := member.2;
                     route_methods :=
                       map Str.upper
                         match methods with None => ["get"] | Some ms => ms end;
                     route_args := args;
                     route_kwargs := kwargs |})
             (List.filter (registers m router_name) (getmembers m)))
  /\ (forall raises (σ : store),
        raises fetch_a_route = None ->
        register_functions_as_routes raises views default_methods [] [] σ
        = (Ok tt, <[0 := σ !!! 0 ++ [fetch_a_route]]> σ)).
Proof.
  split.
  - intros raises m methods args kwargs σ σ' router_name router routers
      Hfind Hrun.
    destruct (register_functions_as_routes_run raises m methods args kwargs σ
                _ _ _ Hfind) as (pre & post & σ1 & Hmem & _ & Hr & _ & Hpost).
    destruct post as [|x post].
    + rewrite Hrun in Hpost. injection Hpost as <-.
      rewrite Hmem, app_nil_r, Hr. f_equal.
      apply map_ext. intros [name fn]. unfold route_for. cbn [snd].
      by rewrite replace_underscore.
    + destruct Hpost as (e & _ & Hraise). congruence.
  - intros raises σ Haccept.
    rewrite (register_functions_as_routes_members _ _ _ _ _ _ "router" 0 [])
      by reflexivity.
    change (getmembers views)
      with [("fetch_a", fetch_a); ("noroute_fetch_b", noroute_fetch_b)].
    cbn [register_members]. unfold register_member at 1.
    replace (eligible views "router" ("fetch_a", fetch_a)) with (Ok true)
      by (vm_compute; reflexivity).
    unfold auto_route, add_api_route. cbn [snd].
    change (route_for fetch_a default_methods [] []) with fetch_a_route.
    rewrite Haccept. unfold register_member.
    replace (eligible views "router" ("noroute_fetch_b", noroute_fetch_b))
      with (Ok false) by (vm_compute; reflexivity).
    reflexivity.
Qed.

Lemma registered_under_upper_methods_witness :
  (register_functions_as_routes accept_all naming (Some ["get"; "Post"]) [] [] ∅).2
    !!! 0
  = [{| route_path := "/x-y-z"; route_endpoint := x_y_z;
        route_methods := ["GET"; "POST"]; route_args := [];
        route_kwargs := [] |}]
  /\ register_functions_as_routes accept_all views default_methods [] [] ∅
     = (Ok tt, <[0 := (∅ : store) !!! 0 ++ [fetch_a_route]]> ∅).
Proof.
  destruct registered_under_upper_methods as [Hall Hviews]. split.
  - rewrite (Hall accept_all naming (Some ["get"; "Post"]) [] [] ∅
               (register_functions_as_routes accept_all naming
                  (Some ["get"; "Post"]) [] [] ∅).2 "router" 0 []).
    + vm_compute. reflexivity.
    + reflexivity.
    + vm_compute. reflexivity.
  - apply (Hviews accept_all ∅). reflexivity.
Defined.

(** ** Exceptions inside the loop *)

Lemma register_members_abort raises m router_name router methods args kwargs
    pre member post e σ :
  Forall (passes raises m router_name methods args kwargs) pre ->
  fails raises m router_name methods args kwargs member e ->
  exists σ',
    register_members raises m router_name router methods args kwargs
      (pre ++ member :: post) σ = (Raise e, σ')
    /\ register_members raises m router_name router methods args kwargs pre σ
       = (Ok tt, σ')
    /\ σ' !!! router
       = σ !!! router
         ++ map (fun member : str * function =>
                   route_for member.2 methods args kwargs)
              (List.filter (registers m router_name) pre)
    /\ (forall r, r <> router -> σ' !! r = σ !! r).
Proof.
  intros Hpre Hfail.
  destruct (register_members_passes raises m router_name router methods args
              kwargs pre σ Hpre) as (σ' & Hl & Hr & Ho).
  exists σ'. repeat (split; [|done]).
  rewrite register_members_app, Hl. simpl.
  by rewrite (register_member_fails _ _ _ _ _ _ _ member σ' e Hfail).
Qed.

(** C8. When the router raises [e] for a member that passed the test, and
    the iterations before it ended without an exception, the call raises
    the same [e]; the store it leaves is the one the earlier iterations
    produced, so their routes are on the router and the members after the
    failing one have added none. *)
Theorem registration_error_aborts raises m methods args kwargs σ
    router_name router routers pre name fn post e :
  find_routers_in_module m = (router_name, router) :: routers ->
  getmembers m = pre ++ (name, fn) :: post ->
  Forall (passes raises m router_name methods args kwargs) pre ->
  eligible m router_name (name, fn) = Ok true ->
  raises (route_for fn methods args kwargs) = Some e ->
  exists σ',
    register_functions_as_routes raises m methods args kwargs σ = (Raise e, σ')
    /\ register_members raises m router_name router methods args kwargs pre σ
       = (Ok tt, σ')
    /\ σ' !!! router
       = σ !!! router
         ++ map (fun member : str * function =>
                   route_for member.2 methods args kwargs)
              (List.filter (registers m router_name) pre)
    /\ (forall r, r <> router -> σ' !! r = σ !! r).
Proof.
  intros Hfind Hmem Hpre Hel Hraise.
  rewrite (register_functions_as_routes_members _ _ _ _ _ _ _ _ _ Hfind), Hmem.
  apply register_members_abort; [done|]. right. by split.
Qed.

Lemma registration_error_aborts_witness :
  exists σ',
    register_functions_as_routes refuse_x_y_z three default_methods [] [] ∅
    = (Raise (RouterError "invalid path"), σ')
    /\ register_members refuse_x_y_z three "router" 0 default_methods [] []
         [("fetch_a", fetch_a)] ∅ = (Ok tt, σ')
    /\ σ' !!! 0
       = (∅ : store) !!! 0
         ++ map (fun member : str * function =>
                   route_for member.2 default_methods [] [])
              (List.filter (registers three "router") [("fetch_a", fetch_a)])
    /\ (forall r, r <> 0 -> σ' !! r = (∅ : store) !! r).
Proof.
  apply (registration_error_aborts refuse_x_y_z three default_methods [] [] ∅
           "router" 0 [] [("fetch_a", fetch_a)] "x_y_z" x_y_z
           [("zeta", {| fn_name := "zeta"; fn_module := "app.views";
                        fn_source := Some "async def zeta(): pass" |})]
           (RouterError "invalid path")).
  - reflexivity.
  - reflexivity.
  - constructor; [|constructor]. right. split; vm_compute; reflexivity.
  - vm_compute. reflexivity.
  - reflexivity.
Defined.

Example three_after_error :
  (register_functions_as_routes refuse_x_y_z three default_methods [] [] ∅).2
    !!! 0 = [fetch_a_route].
Proof. vm_compute. reflexivity. Qed.

(** C10. The source of every coroutine member is read before the test of
    the loop looks at its module or its name.  A member without source
    makes every call raise; when the iterations before it ended without an
    exception the call raises [OSError] at that member, whatever its
    module and its name, and the store is the one the earlier iterations
    produced. *)
Theorem source_unavailable_aborts raises m methods args kwargs σ name fn :
  (name, fn) ∈ getmembers m ->
  fn_source fn = None ->
  (exists e σ',
      register_functions_as_routes raises m methods args kwargs σ
      = (Raise e, σ'))
  /\ (forall router_name router routers pre post,
        find_routers_in_module m = (router_name, router) :: routers ->
        getmembers m = pre ++ (name, fn) :: post ->
        Forall (passes raises m router_name methods args kwargs) pre ->
        exists σ',
          register_functions_as_routes raises m methods args kwargs σ
          = (Raise OSError, σ')
          /\ register_members raises m router_name router methods args kwargs
               pre σ = (Ok tt, σ')
          /\ σ' !!! router
             = σ !!! router
               ++ map (fun member : str * function =>
                         route_for member.2 methods args kwargs)
                    (List.filter (registers m router_name) pre)).
Proof.
  intros Hin Hsrc.
  assert (Hel : forall router_name, eligible m router_name (name, fn) = Raise OSError).
  { intros router_name.
    unfold eligible, get_decorators, get_decorator_lines, getsource.
    by rewrite Hsrc. }
  split.
  - destruct (find_routers_in_module m) as [|[router_name router] routers]
      eqn:Hfind.
    + exists StopIteration, σ. unfold register_functions_as_routes.
      by rewrite Hfind.
    + destruct (register_functions_as_routes_run raises m methods args kwargs
                  σ _ _ _ Hfind)
        as (pre & post & σ' & Hmem & Hpre & _ & _ & Hpost).
      destruct post as [|x post].
      * exfalso. rewrite Hmem, app_nil_r in Hin.
        rewrite Forall_forall in Hpre.
        destruct (Hpre _ Hin) as [H|[H _]]; rewrite Hel in H; discriminate H.
      * destruct Hpost as (e & _ & Hrun). by exists e, σ'.
  - intros router_name router routers pre post Hfind Hmem Hpre.
    rewrite (register_functions_as_routes_members _ _ _ _ _ _ _ _ _ Hfind), Hmem.
    destruct (register_members_abort raises m router_name router methods args
                kwargs pre (name, fn) post OSError σ Hpre)
      as (σ' & Hrun & Hl & Hr & _); [by left|].
    by exists σ'.
Qed.

Lemma source_unavailable_aborts_witness :
  (exists e σ',
      register_functions_as_routes accept_all synthetic default_methods [] [] ∅
      = (Raise e, σ'))
  /\ exists σ',
      register_functions_as_routes accept_all synthetic default_methods [] [] ∅
      = (Raise OSError, σ')
      /\ register_members accept_all synthetic "router" 0 default_methods [] []
           [("fetch_a", fetch_a)] ∅ = (Ok tt, σ')
      /\ σ' !!! 0
         = (∅ : store) !!! 0
           ++ map (fun member : str * function =>
                     route_for member.2 default_methods [] [])
                (List.filter (registers synthetic "router")
                   [("fetch_a", fetch_a)]).
Proof.
  destruct (source_unavailable_aborts accept_all synthetic default_methods
              [] [] ∅ "noroute_synth" noroute_synth) as [Hany Hat].
  - right. left.
  - reflexivity.
  - split; [exact Hany|].
    apply (Hat "router" 0 [] [("fetch_a", fetch_a)] [("x_y_z", x_y_z)]).
    + reflexivity.
    + reflexivity.
    + constructor; [|constructor]. right. split; vm_compute; reflexivity.
Defined.

(** ** The decorator pattern *)

Lemma run_chr_nil p g k : Re.run (Re.Chr p) [] g k = None.
Proof. reflexivity. Qed.

Lemma run_chr_cons p c s g k :
  Re.run (Re.Chr p) (c :: s) g k = if p c then k s g else None.
Proof. reflexivity. Qed.

Lemma run_cat r1 r2 s g k :
  Re.run (Re.Cat r1 r2) s g k
  = Re.run r1 s g (fun s' g' => Re.run r2 s' g' k).
Proof. reflexivity. Qed.

Lemma run_opt r s g k :
  Re.run (Re.Opt r) s g k
  = match Re.run r s g k with Some g' => Some g' | None => k s g end.
Proof. reflexivity. Qed.

Lemma run_group n r s g k :
  Re.run (Re.Group n r) s g k
  = Re.run r s g
      (fun s' g' => k s' (<[n := take (length s - length s') s]> g')).
Proof. reflexivity. Qed.

Lemma star_loop_chr p k fuel s g :
  length s <= fuel ->
  Re.star_loop (Re.run (Re.Chr p)) k fuel s g = star_chr p k s g.
Proof.
  revert s g. induction fuel as [|fuel IH]; intros s g Hlen.
  - destruct s; [done|]. simpl in Hlen. lia.
  - destruct s as [|c s]; [done|]. simpl in Hlen.
    cbn [Re.star_loop star_chr]. rewrite run_chr_cons.
    destruct (p c); [|done].
    assert ((length s <? length (c :: s)) = true) as ->
      by (apply Nat.ltb_lt; simpl; lia).
    by rewrite IH by lia.
Qed.

Lemma run_star_chr p s g k :
  Re.run (Re.Star (Re.Chr p)) s g k = star_chr p k s g.
Proof. apply star_loop_chr. lia. Qed.

Lemma star_chr_stop p k rest g : stops p rest -> star_chr p k rest g = k rest g.
Proof. destruct rest as [|c rest]; [done|]. simpl. by intros ->. Qed.

(** The repetition takes the whole run when the rest of the pattern
    matches after it. *)
Lemma star_chr_greedy p k run rest g g' :
  forallb p run = true ->
  stops p rest ->
  k rest g = Some g' ->
  star_chr p k (run ++ rest) g = Some g'.
Proof.
  intros Hrun Hstop Hk. induction run as [|c run IH].
  - by rewrite star_chr_stop.
  - simpl in Hrun. apply andb_true_iff in Hrun as [Hc Hrun].
    simpl. by rewrite Hc, IH.
Qed.

(** It gives back one character when the rest of the pattern fails after
    the whole run and matches one character earlier. *)
Lemma star_chr_give_back p k run c rest g g' :
  forallb p run = true ->
  p c = true ->
  stops p rest ->
  k rest g = None ->
  k (c :: rest) g = Some g' ->
  star_chr p k (run ++ c :: rest) g = Some g'.
Proof.
  intros Hrun Hc Hstop Hnone Hk. induction run as [|d run IH].
  - simpl. by rewrite Hc, star_chr_stop, Hnone.
  - simpl in Hrun. apply andb_true_iff in Hrun as [Hd Hrun].
    simpl. by rewrite Hd, IH.
Qed.

Lemma take_length_diff {A} (a b : list A) :
  take (length (a ++ b) - length b) (a ++ b) = a.
Proof.
  rewrite length_app, Nat.add_sub. apply take_app_length.
Qed.

Lemma take_length_diff_cons {A} (c : A) (a b : list A) :
  take (length (c :: a ++ b) - length b) (c :: a ++ b) = c :: a.
Proof. apply (take_length_diff (c :: a) b). Qed.

(** *** Character tables *)

Lemma isspace_not_word c :
  Str.isspace c = true -> Re.isword_or_dot c = false.
Proof.
  destruct c as [[] [] [] [] [] [] [] []]; vm_compute; congruence.
Qed.

Lemma isword_not_at c : Re.isword c = true -> Ascii.eqb c "@"%char = false.
Proof.
  destruct c as [[] [] [] [] [] [] [] []]; vm_compute; congruence.
Qed.

Lemma word_stops_at_space ws tail :
  forallb Str.isspace ws = true ->
  stops Re.isword_or_dot tail ->
  stops Re.isword_or_dot (ws ++ tail).
Proof.
  destruct ws as [|w ws]; [done|]. simpl.
  intros H _. apply andb_true_iff in H as [H _]. by apply isspace_not_word.
Qed.

(** *** What the pattern captures *)

Lemma re_match_bare name ws :
  dotted_identifier name = true ->
  forallb Str.isspace ws = true ->
  Re.re_match Re.decorator_pattern (name ++ ws) = Some (<[1 := name]> ∅).
Proof.
  intros Hname Hws. destruct name as [|c rest]; [done|].
  apply andb_true_iff in Hname as [Hc Hrest].
  unfold Re.re_match, Re.decorator_pattern.
  rewrite run_cat, run_group, run_cat. cbn [app].
  rewrite run_chr_cons, Hc, run_star_chr.
  apply star_chr_greedy; [done| |].
  { rewrite <- (app_nil_r ws). by apply word_stops_at_space. }
  cbv beta. rewrite take_length_diff_cons.
  rewrite run_cat, run_star_chr, <- (app_nil_r ws).
  by apply star_chr_greedy.
Qed.

Lemma re_match_call name ws inner :
  dotted_identifier name = true ->
  forallb Str.isspace ws = true ->
  forallb Re.isdot inner = true ->
  Re.re_match Re.decorator_pattern (name ++ ws ++ "(" ++ inner ++ ")")
  = Some (<[2 := "(" ++ inner ++ ")"]> (<[3 := inner]> (<[1 := name]> ∅))).
Proof.
  intros Hname Hws Hinner. destruct name as [|c rest]; [done|].
  apply andb_true_iff in Hname as [Hc Hrest].
  unfold Re.re_match, Re.decorator_pattern.
  rewrite run_cat, run_group, run_cat. cbn [app].
  rewrite run_chr_cons, Hc, run_star_chr.
  apply star_chr_greedy; [done|by apply word_stops_at_space|].
  cbv beta.
  rewrite take_length_diff_cons.
  rewrite run_cat, run_star_chr.
  apply star_chr_greedy; [done|done|].
  cbv beta. rewrite run_opt, run_group, run_cat, run_chr_cons.
  cbn [Ascii.eqb Bool.eqb]. rewrite run_cat, run_group, run_star_chr.
  erewrite (star_chr_give_back Re.isdot _ inner ")"%char []);
    [ | done | done | done | done | ].
  2:{ cbv beta. rewrite run_chr_cons. cbn [Ascii.eqb Bool.eqb].
      reflexivity. }
  rewrite (take_length_diff inner [")"%char]).
  change (length (@nil ascii)) with 0.
  by rewrite Nat.sub_0_r, firstn_all.
Qed.

Lemma star_chr_total p k s g :
  (forall s' g', is_Some (k s' g')) -> is_Some (star_chr p k s g).
Proof.
  intros Hk. induction s as [|c s IH]; simpl; [done|].
  destruct (p c); [|done]. by destruct (star_chr p k s g).
Qed.

(** The pattern matches exactly the texts that begin with a word
    character. *)
Lemma re_match_some c rest :
  Re.isword c = true ->
  is_Some (Re.re_match Re.decorator_pattern (c :: rest)).
Proof.
  intros Hc. unfold Re.re_match, Re.decorator_pattern.
  rewrite run_cat, run_group, run_cat, run_chr_cons, Hc, run_star_chr.
  apply star_chr_total. intros s1 g1.
  rewrite run_cat, run_star_chr. apply star_chr_total. intros s2 g2.
  rewrite run_opt.
  by destruct (Re.run (Re.Group 2 _) s2 g2 _).
Qed.

Lemma re_match_none deco :
  stops Re.isword deco ->
  Re.re_match Re.decorator_pattern deco = None.
Proof.
  intros Hstop. unfold Re.re_match, Re.decorator_pattern.
  rewrite run_cat, run_group, run_cat.
  destruct deco as [|c rest]; [done|]. simpl in Hstop.
  by rewrite run_chr_cons, Hstop.
Qed.

(** *** Splitting at commas *)

Lemma split_not_nil s sep : Str.split s sep <> [].
Proof.
  destruct s as [|c s]; simpl; [done|].
  destruct (Ascii.eqb c sep); [done|]. by destruct (Str.split s sep).
Qed.

Lemma join_split s sep : join sep (Str.split s sep) = s.
Proof.
  induction s as [|c s IH]; [done|]. simpl.
  destruct (Ascii.eqb_spec c sep) as [->|Hne].
  - simpl. destruct (Str.split s sep) as [|p ps] eqn:Hs.
    + by destruct (split_not_nil s sep).
    + simpl in *. by rewrite IH.
  - destruct (Str.split s sep) as [|p ps] eqn:Hs.
    + by destruct (split_not_nil s sep).
    + simpl in *. by rewrite IH.
Qed.

Lemma split_no_sep s sep :
  Forall (fun piece => sep ∉ piece) (Str.split s sep).
Proof.
  induction s as [|c s IH]; simpl.
  - constructor; [|done]. apply not_elem_of_nil.
  - destruct (Ascii.eqb_spec c sep) as [->|Hne].
    + constructor; [apply not_elem_of_nil|done].
    + destruct (Str.split s sep) as [|p ps].
      * constructor; [|done]. intros Hin.
        apply elem_of_cons in Hin as [->|Hin]; [done|by apply elem_of_nil in Hin].
      * inversion IH as [|? ? Hp Hps]; subst. constructor; [|done].
        intros Hin. apply elem_of_cons in Hin as [->|Hin]; done.
Qed.

(** ** Decorator parser *)

Lemma lstrip_at_name name rest :
  dotted_identifier name = true ->
  Str.lstrip_chars ("@" ++ name ++ rest) "@" = name ++ rest.
Proof.
  destruct name as [|c name]; [done|]. intros H.
  apply andb_true_iff in H as [Hc _]. apply isword_not_at in Hc.
  simpl. by rewrite Hc.
Qed.

(** C5. A line made of the marker, a dotted identifier (a word character
    followed by word characters and dots), white space and nothing else
    parses to a record with that identifier as name and no arguments.
    When a parenthesized text without line feed ends the line, the
    arguments are the pieces of that text between its commas, in order,
    each stripped of white space, and there is none when the text is
    empty.  The line of the specification parses as it says. *)
Theorem parse_decorator_line_shape :
  (forall name ws,
      dotted_identifier name = true ->
      forallb Str.isspace ws = true ->
      parse_decorator_line ("@" ++ name ++ ws) = SimpleNamespace name []
      /\ forall inner,
          forallb Re.isdot inner = true ->
          parse_decorator_line ("@" ++ name ++ ws ++ "(" ++ inner ++ ")")
          = SimpleNamespace name
              match inner with
              | [] => []
              | _ :: _ => map Str.strip (Str.split inner ","%char)
              end)
  /\ parse_decorator_line
       ("@router.get(" ++ quoted "/custom" ++ ", tags=[" ++ quoted "x" ++ "])")
     = SimpleNamespace "router.get"
         [quoted "/custom"; "tags=[" ++ quoted "x" ++ "]"].
Proof.
  split; [|by vm_compute].
  intros name ws Hname Hws. split.
  - unfold parse_decorator_line.
    rewrite lstrip_at_name, re_match_bare by done.
    by rewrite lookup_insert_eq, lookup_insert_ne, lookup_empty.
  - intros inner Hinner. unfold parse_decorator_line.
    rewrite lstrip_at_name, re_match_call by done.
    rewrite lookup_insert_ne, lookup_insert_ne, lookup_insert_eq by done.
    rewrite lookup_insert_ne, lookup_insert_eq by done.
    by destruct inner.
Qed.

Lemma parse_decorator_line_shape_witness :
  parse_decorator_line ("@" ++ "app.route" ++ " ")
  = SimpleNamespace "app.route" []
  /\ parse_decorator_line ("@" ++ "app.route" ++ " " ++ "(" ++ " a ,b,, c=[1, 2] " ++ ")")
     = SimpleNamespace "app.route" ["a"; "b"; []; "c=[1"; "2]"].
Proof.
  destruct parse_decorator_line_shape as [Hshape _].
  destruct (Hshape "app.route" " ") as [Hbare Hcall];
    [reflexivity|reflexivity|].
  split; [exact Hbare|].
  rewrite (Hcall " a ,b,, c=[1, 2] ") by reflexivity.
  vm_compute. reflexivity.
Defined.

(** C6. The line [@(trace)] does not begin with a word character: the
    parser returns the pair of the stripped text and the empty list, which
    has no attribute [name]; reading it raises [AttributeError], and so
    does the registrar on a module with a function decorated this way. *)
Theorem unmatched_line_has_no_name :
  parse_decorator_line "@(trace)" = Tuple "(trace)" []
  /\ attr_name (parse_decorator_line "@(trace)") = Raise AttributeError
  /\ get_decorators traced = Ok [Tuple "(trace)" []]
  /\ register_functions_as_routes accept_all tracing default_methods [] [] ∅
     = (Raise AttributeError, ∅).
Proof. repeat split; vm_compute; reflexivity. Qed.

(** Every line that the pattern does not match takes that branch. *)
Lemma unmatched_line_tuple line :
  stops Re.isword (Str.lstrip_chars line "@") ->
  parse_decorator_line line = Tuple (Str.lstrip_chars line "@") []
  /\ attr_name (parse_decorator_line line) = Raise AttributeError.
Proof.
  intros Hstop. unfold parse_decorator_line.
  by rewrite re_match_none.
Qed.

Lemma matched_line_namespace line :
  ~ stops Re.isword (Str.lstrip_chars line "@") ->
  exists name args, parse_decorator_line line = SimpleNamespace name args.
Proof.
  intros Hstop. unfold parse_decorator_line.
  destruct (Str.lstrip_chars line "@") as [|c rest]; [by destruct Hstop|].
  simpl in Hstop. apply not_false_is_true in Hstop.
  destruct (re_match_some c rest Hstop) as [groups ->]. eauto.
Qed.

(** ** White space at the ends of a text *)

Lemma lstrip_blank ws x :
  forallb Str.isspace ws = true -> Str.lstrip (ws ++ x) = Str.lstrip x.
Proof.
  induction ws as [|c ws IH]; [done|]. simpl. intros H.
  apply andb_true_iff in H as [-> H]. by apply IH.
Qed.

Lemma lstrip_split x :
  exists ws, forallb Str.isspace ws = true /\ x = ws ++ Str.lstrip x.
Proof.
  induction x as [|c x (ws & Hws & IH)]; [by exists []|]. simpl.
  destruct (Str.isspace c) eqn:Hc.
  - exists (c :: ws). simpl. rewrite Hc, Hws. by rewrite <- IH.
  - by exists [].
Qed.

Lemma lstrip_nil x : Str.lstrip x = [] -> forallb Str.isspace x = true.
Proof.
  induction x as [|c x IH]; [done|]. simpl.
  destruct (Str.isspace c); [done|discriminate].
Qed.

Lemma lstrip_app x y : Str.lstrip x <> [] -> Str.lstrip (x ++ y) = Str.lstrip x ++ y.
Proof.
  induction x as [|c x IH]; [done|]. simpl.
  destruct (Str.isspace c); [done|by intros _].
Qed.

Lemma forallb_rev {A} (p : A -> bool) l :
  forallb p l = true -> forallb p (rev l) = true.
Proof.
  rewrite !forallb_forall. intros H x Hin. apply H. by apply in_rev.
Qed.

Lemma rstrip_split x :
  exists ws, forallb Str.isspace ws = true /\ x = Str.rstrip x ++ ws.
Proof.
  destruct (lstrip_split (rev x)) as (ws & Hws & Hx).
  exists (rev ws). split; [by apply forallb_rev|].
  unfold Str.rstrip. rewrite <- rev_app_distr, <- Hx. by rewrite rev_involutive.
Qed.

Lemma rstrip_blank l e :
  forallb Str.isspace e = true -> Str.rstrip (l ++ e) = Str.rstrip l.
Proof.
  intros He. unfold Str.rstrip.
  by rewrite rev_app_distr, lstrip_blank by by apply forallb_rev.
Qed.

Lemma strip_blank_r l e :
  forallb Str.isspace e = true -> Str.strip (l ++ e) = Str.strip l.
Proof. intros He. unfold Str.strip. by rewrite rstrip_blank. Qed.

Lemma strip_blank e : forallb Str.isspace e = true -> Str.strip e = [].
Proof. intros He. by rewrite <- (app_nil_l e), strip_blank_r. Qed.

Lemma strip_blank_l c l :
  Str.isspace c = true -> Str.strip (c :: l) = Str.strip l.
Proof.
  intros Hc. unfold Str.strip, Str.rstrip. cbn [rev].
  destruct (Str.lstrip (rev l)) as [|d r] eqn:Hl.
  - apply lstrip_nil in Hl. rewrite lstrip_blank by done. simpl. by rewrite Hc.
  - rewrite lstrip_app by (by rewrite Hl). rewrite Hl, rev_app_distr. simpl.
    by rewrite Hc.
Qed.

(** Stripping twice is stripping once. *)
Lemma lstrip_head x :
  match Str.lstrip x with
  | [] => True
  | c :: _ => Str.isspace c = false
  end.
Proof.
  induction x as [|c x IH]; [done|]. simpl.
  by destruct (Str.isspace c) eqn:Hc; [|simpl].
Qed.

Lemma lstrip_lstrip x : Str.lstrip (Str.lstrip x) = Str.lstrip x.
Proof.
  pose proof (lstrip_head x) as H.
  destruct (Str.lstrip x) as [|c t]; [done|]. simpl. by rewrite H.
Qed.

Lemma strip_strip l : Str.strip (Str.strip l) = Str.strip l.
Proof.
  set (y := Str.lstrip (rev l)).
  assert (Hl : Str.strip l = Str.lstrip (rev y)) by reflexivity.
  rewrite Hl. clear Hl.
  destruct (lstrip_split (rev y)) as (ws & Hws & Hy).
  set (z := Str.lstrip (rev y)) in *.
  assert (Hr : Str.rstrip z = z).
  { unfold Str.rstrip. destruct (rev z) as [|d t] eqn:Hz.
    - apply (f_equal (@rev ascii)) in Hz. rewrite rev_involutive in Hz.
      by rewrite Hz.
    - pose proof (lstrip_head (rev l)) as Hhead. fold y in Hhead.
      apply (f_equal (@rev ascii)) in Hy.
      rewrite rev_involutive, rev_app_distr, Hz in Hy.
      rewrite Hy in Hhead. simpl in Hhead. simpl. rewrite Hhead.
      by rewrite <- Hz, rev_involutive. }
  unfold Str.strip. rewrite Hr. apply lstrip_lstrip.
Qed.

(** ** Lines *)

Lemma splitlines_lf s : Str.splitlines ("010"%char :: s) = [] :: Str.splitlines s.
Proof. by destruct s. Qed.

Lemma marked_lines_cons_blank l lines :
  forallb Str.isspace l = true ->
  List.filter (fun line => Str.startswith line "@") (map Str.strip (l :: lines))
  = List.filter (fun line => Str.startswith line "@") (map Str.strip lines).
Proof. intros Hl. simpl. by rewrite strip_blank. Qed.

Lemma marked_lines_all_blank lines :
  Forall (fun l => forallb Str.isspace l = true) lines ->
  List.filter (fun line => Str.startswith line "@") (map Str.strip lines) = [].
Proof.
  induction 1 as [|l lines Hl _ IH]; [done|].
  by rewrite marked_lines_cons_blank.
Qed.

Lemma marked_lines_trailing lines lines' :
  trailing_space lines lines' ->
  List.filter (fun line => Str.startswith line "@") (map Str.strip lines)
  = List.filter (fun line => Str.startswith line "@") (map Str.strip lines').
Proof.
  induction 1 as [blank Hb|l e blank He Hb|l lines lines' _ IH].
  - by rewrite (marked_lines_all_blank blank).
  - cbn [map List.filter]. rewrite strip_blank_r by done.
    by rewrite (marked_lines_all_blank blank).
  - cbn [map List.filter]. by rewrite IH.
Qed.

Lemma splitlines_blank ws :
  forallb Str.isspace ws = true ->
  Forall (fun l => forallb Str.isspace l = true) (Str.splitlines ws).
Proof.
  induction ws as [|c ws IH]; [constructor|]. simpl. intros H.
  apply andb_true_iff in H as [Hc Hws]. specialize (IH Hws).
  destruct (Str.islinebreak c).
  - constructor; [done|]. destruct ws as [|d ws']; [constructor|].
    destruct (Ascii.eqb c "013"%char && Ascii.eqb d "010"%char) eqn:Hcr;
      [|done].
    apply andb_true_iff in Hcr as [_ Hd]. apply Ascii.eqb_eq in Hd. subst d.
    rewrite splitlines_lf in IH. by inversion IH.
  - destruct (Str.splitlines ws) as [|l ls]; constructor.
    + simpl. by rewrite Hc.
    + constructor.
    + inversion IH; subst. simpl. by rewrite Hc.
    + by inversion IH.
Qed.

Lemma trailing_space_refl lines : trailing_space lines lines.
Proof.
  induction lines as [|l lines IH]; [by constructor|by constructor].
Qed.

Lemma trailing_space_extend c lines lines' :
  trailing_space lines lines' ->
  trailing_space
    match lines with [] => [[c]] | l :: ls => (c :: l) :: ls end
    match lines' with [] => [[c]] | l :: ls => (c :: l) :: ls end.
Proof.
  destruct 1 as [blank Hb|l e blank He Hb|l lines lines' H].
  - destruct blank as [|e blank].
    + apply trailing_space_refl.
    + inversion Hb; subst. by apply (trailing_last [c] e blank).
  - by apply (trailing_last (c :: l) e blank).
  - by apply trailing_cons.
Qed.

Lemma splitlines_trailing u ws :
  forallb Str.isspace ws = true ->
  trailing_space (Str.splitlines u) (Str.splitlines (u ++ ws)).
Proof.
  intros Hws. induction u as [|c u IH].
  - simpl. constructor. by apply splitlines_blank.
  - cbn [app Str.splitlines]. destruct (Str.islinebreak c).
    + destruct u as [|d u'].
      * simpl. apply (trailing_last [] []); [done|].
        destruct ws as [|d ws']; [constructor|].
        pose proof (splitlines_blank _ Hws) as Hb.
        destruct (Ascii.eqb c "013"%char && Ascii.eqb d "010"%char) eqn:Hcr;
          [|done].
        apply andb_true_iff in Hcr as [_ Hd]. apply Ascii.eqb_eq in Hd.
        subst d. rewrite splitlines_lf in Hb. by inversion Hb.
      * cbn [app].
        destruct (Ascii.eqb c "013"%char && Ascii.eqb d "010"%char) eqn:Hcr.
        -- apply andb_true_iff in Hcr as [_ Hd]. apply Ascii.eqb_eq in Hd.
           subst d. cbn [app] in IH. by rewrite !splitlines_lf in IH.
        -- by apply trailing_cons.
    + by apply trailing_space_extend.
Qed.

Lemma marked_lines_blank_r u ws :
  forallb Str.isspace ws = true -> marked_lines (u ++ ws) = marked_lines u.
Proof.
  intros Hws. unfold marked_lines. symmetry.
  by apply marked_lines_trailing, splitlines_trailing.
Qed.

Lemma marked_lines_space c u :
  Str.isspace c = true -> marked_lines (c :: u) = marked_lines u.
Proof.
  intros Hc. unfold marked_lines. cbn [Str.splitlines].
  destruct (Str.islinebreak c).
  - rewrite marked_lines_cons_blank by done.
    destruct u as [|d u']; [done|].
    destruct (Ascii.eqb c "013"%char && Ascii.eqb d "010"%char) eqn:Hcr;
      [|done].
    apply andb_true_iff in Hcr as [_ Hd]. apply Ascii.eqb_eq in Hd. subst d.
    by rewrite splitlines_lf, marked_lines_cons_blank.
  - destruct (Str.splitlines u) as [|l ls].
    + rewrite marked_lines_cons_blank; [done|]. simpl. by rewrite Hc.
    + simpl. by rewrite strip_blank_l.
Qed.

Lemma marked_lines_blank_l ws u :
  forallb Str.isspace ws = true -> marked_lines (ws ++ u) = marked_lines u.
Proof.
  induction ws as [|c ws IH]; [done|]. simpl. intros H.
  apply andb_true_iff in H as [Hc Hws].
  by rewrite marked_lines_space, IH.
Qed.

(** Stripping the text first does not change its marked lines. *)
Lemma marked_lines_strip t : marked_lines (Str.strip t) = marked_lines t.
Proof.
  destruct (rstrip_split t) as (wr & Hwr & Ht).
  destruct (lstrip_split (Str.rstrip t)) as (wl & Hwl & Hr).
  transitivity (marked_lines (Str.rstrip t)).
  - unfold Str.strip.
    rewrite <- (marked_lines_blank_l wl (Str.lstrip (Str.rstrip t))) by done.
    by rewrite <- Hr.
  - rewrite <- (marked_lines_blank_r (Str.rstrip t) wr) by done.
    by rewrite <- Ht.
Qed.

Lemma filter_strip lines :
  map Str.strip
    (List.filter (fun line => Str.startswith (Str.strip line) "@") lines)
  = List.filter (fun line => Str.startswith line "@") (map Str.strip lines).
Proof.
  induction lines as [|l lines IH]; [done|]. cbn [map List.filter].
  destruct (Str.startswith (Str.strip l) "@"); cbn [map]; by rewrite IH.
Qed.

(** ** The first occurrence of a text *)

Lemma startswith_app sub after : Str.startswith (sub ++ after) sub = true.
Proof.
  induction sub as [|c sub IH]; [done|]. simpl.
  by rewrite Ascii.eqb_refl, IH.
Qed.

Lemma find_from_unfold s sub i :
  Str.find_from s sub i
  = if Str.startswith s sub then i
    else match s with
         | [] => (-1)%Z
         | _ :: s' => Str.find_from s' sub (i + 1)%Z
         end.
Proof. by destruct s. Qed.

Lemma find_from_first before sub after i :
  (forall j, j < length before ->
             Str.startswith (drop j (before ++ sub ++ after)) sub = false) ->
  Str.find_from (before ++ sub ++ after) sub i
  = (i + Z.of_nat (length before))%Z.
Proof.
  revert i. induction before as [|c before IH]; intros i Hfirst.
  - rewrite find_from_unfold. simpl. rewrite startswith_app. lia.
  - rewrite find_from_unfold.
    pose proof (Hfirst 0 ltac:(simpl; lia)) as H0.
    change (drop 0 ((c :: before) ++ sub ++ after))
      with ((c :: before) ++ sub ++ after) in H0.
    rewrite H0. cbn [app].
    rewrite IH.
    + simpl length. lia.
    + intros j Hj. apply (Hfirst (S j)). simpl. lia.
Qed.

Lemma slice_to_length before rest :
  Str.slice_to (before ++ rest) (Z.of_nat (length before)) = before.
Proof.
  unfold Str.slice_to.
  destruct (Z.ltb_spec (Z.of_nat (length before)) 0) as [Hneg|_]; [lia|].
  rewrite Nat2Z.id. apply take_app_length.
Qed.

(** ** Decorator extractor *)

(** C9. When the source of the callable cannot be retrieved the extractor
    raises [OSError].  Otherwise, with [before] the text of the source
    that precedes the first occurrence of the keyword followed by a
    space, it returns the lines of [before] that begin with the marker
    once stripped of white space, each stripped, in the order of the
    source; each returned line is non-empty and has no white space at
    its ends. *)
Theorem get_decorator_lines_spec :
  (forall fn, fn_source fn = None -> get_decorator_lines fn = Raise OSError)
  /\ (forall fn source before after,
        fn_source fn = Some source ->
        source = before ++ "def " ++ after ->
        (forall j, j < length before ->
                   Str.startswith (drop j source) "def " = false) ->
        get_decorator_lines fn = Ok (marked_lines before)
        /\ Forall (fun line => line <> []
                               /\ Str.startswith line "@" = true
                               /\ Str.strip line = line
                               /\ exists l, l ∈ Str.splitlines before
                                            /\ line = Str.strip l)
             (marked_lines before)).
Proof.
  split.
  - intros fn Hsrc. unfold get_decorator_lines, getsource. by rewrite Hsrc.
  - intros fn source before after Hsrc -> Hfirst. split.
    + unfold get_decorator_lines, getsource. rewrite Hsrc.
      unfold Str.find. rewrite find_from_first by done.
      rewrite Z.add_0_l, slice_to_length, filter_strip.
      fold (marked_lines (Str.strip before)). by rewrite marked_lines_strip.
    + apply Forall_forall. intros line Hin. unfold marked_lines in Hin.
      apply list_elem_of_In, filter_In in Hin as [Hin Hat].
      apply in_map_iff in Hin as (l & <- & Hl).
      split; [by destruct (Str.strip l)|]. split; [done|].
      split; [apply strip_strip|].
      exists l. split; [by apply list_elem_of_In|done].
Qed.

Lemma get_decorator_lines_spec_witness :
  get_decorator_lines noroute_synth = Raise OSError
  /\ get_decorator_lines listed
     = Ok (marked_lines
             ("@router2.get(" ++ quoted "/listed" ++ ")" ++ [lf] ++ "async "))
  /\ marked_lines
       ("@router2.get(" ++ quoted "/listed" ++ ")" ++ [lf] ++ "async ")
     = ["@router2.get(" ++ quoted "/listed" ++ ")"].
Proof.
  destruct get_decorator_lines_spec as [Hnone Hsome].
  destruct (Hsome listed
              ("@router2.get(" ++ quoted "/listed" ++ ")" ++ [lf]
               ++ "async def listed():" ++ [lf] ++ "    return 3" ++ [lf])
              ("@router2.get(" ++ quoted "/listed" ++ ")" ++ [lf] ++ "async ")
              ("listed():" ++ [lf] ++ "    return 3" ++ [lf]))
    as [Hlines _].
  - reflexivity.
  - reflexivity.
  - intros j Hj. cbn in Hj.
    do 30 (destruct j as [|j]; [reflexivity|]). lia.
  - split; [by apply Hnone|]. split; [exact Hlines|by vm_compute].
Defined.

(** * Further properties of the registrar *)

Lemma register_ok_passes raises m methods args kwargs σ σ'
    router_name router routers :
  find_routers_in_module m = (router_name, router) :: routers ->
  register_functions_as_routes raises m methods args kwargs σ = (Ok tt, σ') ->
  Forall (passes raises m router_name methods args kwargs) (getmembers m).
Proof.
  intros Hfind Hrun.
  destruct (register_functions_as_routes_run raises m methods args kwargs σ
              _ _ _ Hfind) as (pre & post & σ1 & Hmem & Hpre & _ & _ & Hpost).
  destruct post as [|x post].
  - by rewrite Hmem, app_nil_r.
  - destruct Hpost as (e & _ & Hraise). congruence.
Qed.

(** X1. Whatever the outcome of a call, the store changes only at the
    first router of the module, and there only by routes added after the
    ones it had; without a router the store does not change at all. *)
Theorem register_only_appends raises m methods args kwargs σ :
  match find_routers_in_module m with
  | [] => (register_functions_as_routes raises m methods args kwargs σ).2 = σ
  | (_, router) :: _ =>
      (exists new,
          (register_functions_as_routes raises m methods args kwargs σ).2
            !!! router = σ !!! router ++ new)
      /\ forall r,
          r <> router ->
          (register_functions_as_routes raises m methods args kwargs σ).2 !! r
          = σ !! r
  end.
Proof.
  destruct (find_routers_in_module m) as [|[router_name router] routers]
    eqn:Hfind.
  - unfold register_functions_as_routes. by rewrite Hfind.
  - destruct (register_functions_as_routes_run raises m methods args kwargs σ
                _ _ _ Hfind) as (pre & post & σ' & _ & _ & Hr & Ho & Hpost).
    assert (Hsnd :
      (register_functions_as_routes raises m methods args kwargs σ).2 = σ').
    { destruct post as [|x post]; [by rewrite Hpost|].
      by destruct Hpost as (e & _ & ->). }
    rewrite Hsnd. split; [by eexists|done].
Qed.

Lemma tuple_unmatched line first second :
  parse_decorator_line line = Tuple first second ->
  stops Re.isword (Str.lstrip_chars line "@").
Proof.
  intros Hparse.
  destruct (Str.lstrip_chars line "@") as [|c rest] eqn:Hdeco; [done|].
  simpl. destruct (Re.isword c) eqn:Hc; [|done].
  destruct (matched_line_namespace line) as (name & args & Hns).
  - rewrite Hdeco. simpl. by rewrite Hc.
  - congruence.
Qed.

Lemma any_name_startswith_raise decorators router_name e :
  any_name_startswith decorators router_name = Raise e ->
  e = AttributeError
  /\ exists first second, Tuple first second ∈ decorators.
Proof.
  induction decorators as [|d ds IH]; [done|]. simpl.
  destruct d as [name args|first second]; simpl.
  - destruct (Str.startswith name router_name); [done|].
    intros H. destruct (IH H) as (-> & f & s & Hin).
    split; [done|]. exists f, s. by right.
  - intros [= <-]. split; [done|]. exists first, second. by left.
Qed.

Lemma eligible_raise m router_name name fn e :
  eligible m router_name (name, fn) = Raise e ->
  (e = OSError /\ fn_source fn = None)
  \/ (e = AttributeError
      /\ exists lines line,
          get_decorator_lines fn = Ok lines
          /\ line ∈ lines
          /\ stops Re.isword (Str.lstrip_chars line "@")).
Proof.
  unfold eligible, get_decorators.
  destruct (get_decorator_lines fn) as [lines|e'] eqn:Hlines.
  - destruct (any_name_startswith (map parse_decorator_line lines)
                router_name) as [has|e'] eqn:Hany; [done|].
    intros [= <-]. right.
    apply any_name_startswith_raise in Hany as (-> & f & s & Hin).
    split; [done|].
    apply list_elem_of_fmap in Hin as (line & Hparse & Hin).
    exists lines, line. split; [done|]. split; [done|].
    by eapply tuple_unmatched.
  - intros [= <-]. left.
    unfold get_decorator_lines, getsource in Hlines.
    destruct (fn_source fn); [done|]. by injection Hlines as <-.
Qed.

(** X2. A call raises only [StopIteration] (no router in the module),
    [OSError] (a coroutine member without source), [AttributeError] (a
    coroutine member with a decorator line that does not begin with a
    word character after the marker), or what the router raised for a
    member that passed the test. *)
Theorem register_raises_only raises m methods args kwargs σ e σ' :
  register_functions_as_routes raises m methods args kwargs σ = (Raise e, σ') ->
  (e = StopIteration /\ find_routers_in_module m = [])
  \/ (e = OSError
      /\ exists name fn, (name, fn) ∈ getmembers m /\ fn_source fn = None)
  \/ (e = AttributeError
      /\ exists name fn lines line,
          (name, fn) ∈ getmembers m
          /\ get_decorator_lines fn = Ok lines
          /\ line ∈ lines
          /\ stops Re.isword (Str.lstrip_chars line "@"))
  \/ (exists name fn router_name router routers,
         find_routers_in_module m = (router_name, router) :: routers
         /\ (name, fn) ∈ getmembers m
         /\ eligible m router_name (name, fn) = Ok true
         /\ raises (route_for fn methods args kwargs) = Some e).
Proof.
  intros Hrun.
  destruct (find_routers_in_module m) as [|[router_name router] routers]
    eqn:Hfind.
  { left. unfold register_functions_as_routes in Hrun.
    rewrite Hfind in Hrun. simpl in Hrun. by injection Hrun as <- _. }
  right.
  destruct (register_functions_as_routes_run raises m methods args kwargs σ
              _ _ _ Hfind) as (pre & post & σ1 & Hmem & _ & _ & _ & Hpost).
  destruct post as [|[name fn] post]; [congruence|].
  destruct Hpost as (e' & Hfail & Hraise).
  assert (e' = e) as -> by congruence.
  assert (Hin : (name, fn) ∈ getmembers m).
  { rewrite Hmem. apply elem_of_app. right. by left. }
  destruct Hfail as [Hel|[Hel Hr]].
  - apply eligible_raise in Hel as [[-> Hsrc]|(-> & lines & line & H)].
    + left. split; [done|]. by exists name, fn.
    + right. left. split; [done|]. by exists name, fn, lines, line.
  - right. right. by exists name, fn, router_name, router, routers.
Qed.

Lemma register_raises_only_witness :
  (AttributeError = StopIteration /\ find_routers_in_module tracing = [])
  \/ (AttributeError = OSError
      /\ exists name fn, (name, fn) ∈ getmembers tracing /\ fn_source fn = None)
  \/ (AttributeError = AttributeError
      /\ exists name fn lines line,
          (name, fn) ∈ getmembers tracing
          /\ get_decorator_lines fn = Ok lines
          /\ line ∈ lines
          /\ stops Re.isword (Str.lstrip_chars line "@"))
  \/ (exists name fn router_name router routers,
         find_routers_in_module tracing = (router_name, router) :: routers
         /\ (name, fn) ∈ getmembers tracing
         /\ eligible tracing router_name (name, fn) = Ok true
         /\ accept_all (route_for fn default_methods [] [])
            = Some AttributeError).
Proof.
  apply (register_raises_only accept_all tracing default_methods [] [] ∅
           AttributeError ∅).
  vm_compute. reflexivity.
Defined.

(** X3. A call that returns can be repeated: the second call returns as
    well and adds the same routes once more, so each function that passed
    the test then has two entries on the router. *)
Theorem register_twice raises m methods args kwargs σ σ1
    router_name router routers :
  find_routers_in_module m = (router_name, router) :: routers ->
  register_functions_as_routes raises m methods args kwargs σ = (Ok tt, σ1) ->
  exists σ2 new,
    register_functions_as_routes raises m methods args kwargs σ1 = (Ok tt, σ2)
    /\ new = map (fun member : str * function =>
                    route_for member.2 methods args kwargs)
               (List.filter (registers m router_name) (getmembers m))
    /\ σ1 !!! router = σ !!! router ++ new
    /\ σ2 !!! router = σ !!! router ++ new ++ new.
Proof.
  intros Hfind Hrun.
  pose proof (register_ok_passes _ _ _ _ _ _ _ _ _ _ Hfind Hrun) as Hall.
  rewrite (register_functions_as_routes_members _ _ _ _ _ _ _ _ _ Hfind)
    in Hrun.
  destruct (register_members_passes raises m router_name router methods args
              kwargs (getmembers m) σ Hall) as (σ1' & Hl1 & Hr1 & _).
  assert (σ1' = σ1) as -> by congruence.
  destruct (register_members_passes raises m router_name router methods args
              kwargs (getmembers m) σ1 Hall) as (σ2 & Hl2 & Hr2 & _).
  exists σ2. eexists. split; [|split; [reflexivity|split; [done|]]].
  - by rewrite (register_functions_as_routes_members _ _ _ _ _ _ _ _ _ Hfind).
  - by rewrite Hr2, Hr1, <- app_assoc.
Qed.

Lemma register_twice_witness :
  exists σ2 new,
    register_functions_as_routes accept_all views default_methods [] []
      (register_functions_as_routes accept_all views default_methods [] [] ∅).2
    = (Ok tt, σ2)
    /\ new = map (fun member : str * function =>
                    route_for member.2 default_methods [] [])
               (List.filter (registers views "router") (getmembers views))
    /\ (register_functions_as_routes accept_all views default_methods [] [] ∅).2
         !!! 0 = (∅ : store) !!! 0 ++ new
    /\ σ2 !!! 0 = (∅ : store) !!! 0 ++ new ++ new.
Proof.
  apply (register_twice accept_all views default_methods [] [] ∅
           (register_functions_as_routes accept_all views default_methods
              [] [] ∅).2 "router" 0 []).
  - reflexivity.
  - vm_compute. reflexivity.
Defined.

(** X4. A function whose [__module__] differs from the [__name__] of the
    module adds nothing to the store in its iteration, under any
    attribute name, and is the endpoint of none of the routes a call
    adds. *)
Theorem imported_function_not_registered raises m methods args kwargs σ
    router_name router fn :
  fn_module fn <> mod_name m ->
  (forall attr,
      (register_member raises m router_name router methods args kwargs
         (attr, fn) σ).2 = σ)
  /\ (forall routers,
        find_routers_in_module m = (router_name, router) :: routers ->
        exists new,
          (register_functions_as_routes raises m methods args kwargs σ).2
            !!! router = σ !!! router ++ new
          /\ Forall (fun rt => route_endpoint rt <> fn) new).
Proof.
  intros Hmod.
  assert (Hnot : forall attr, eligible m router_name (attr, fn) <> Ok true).
  { intros attr Hel. by apply eligible_true in Hel as (_ & _ & _ & ? & _). }
  split.
  - intros attr. by apply register_member_skip.
  - intros routers Hfind.
    destruct (registered_routes raises m methods args kwargs σ _ _ _ Hfind)
      as (new & Hnew & Hfrom).
    exists new. split; [done|]. apply Forall_forall. intros rt Hin Hfn.
    destruct (Hfrom rt Hin) as (attr & fn' & _ & Hel & ->).
    cbn [route_for route_endpoint] in Hfn. subst fn'. by eapply Hnot.
Qed.

Lemma imported_function_not_registered_witness :
  (forall attr,
      (register_member accept_all mixed "router" 0 default_methods [] []
         (attr, imported) ∅).2 = ∅)
  /\ (forall routers,
        find_routers_in_module mixed = ("router", 0) :: routers ->
        exists new,
          (register_functions_as_routes accept_all mixed default_methods
             [] [] ∅).2 !!! 0 = (∅ : store) !!! 0 ++ new
          /\ Forall (fun rt => route_endpoint rt <> imported) new).
Proof.
  apply (imported_function_not_registered accept_all mixed default_methods
           [] [] ∅ "router" 0 imported).
  discriminate.
Defined.

(** * Further properties of the router finder *)

Lemma dict_set_fresh {A} (d : list (str * A)) k v :
  k ∉ map fst d -> dict_set d k v = d ++ [(k, v)].
Proof.
  induction d as [|[k' v'] d IH]; [done|]. simpl. intros Hk.
  apply not_elem_of_cons in Hk as [Hne Hk].
  destruct (decide (k' = k)) as [->|_]; [done|]. by rewrite IH.
Qed.

Lemma find_routers_fold routers (vars : list (str * value)) :
  NoDup (map fst vars) ->
  (forall k, k ∈ map fst routers -> k ∉ map fst vars) ->
  foldl (fun routers '(name, obj) =>
           match obj with
           | APIRouter ref => dict_set routers name ref
           | _ => routers
           end) routers vars
  = routers ++ omap router_item vars.
Proof.
  revert routers.
  induction vars as [|[name v] vars IH]; intros routers Hnd Hdisj.
  - simpl. by rewrite app_nil_r.
  - simpl in Hnd. apply NoDup_cons in Hnd as [Hname Hnd].
    assert (Hrest : forall k, k ∈ map fst routers -> k ∉ map fst vars).
    { intros k Hk Hin. apply (Hdisj k Hk). simpl. by right. }
    destruct v as [ref|fn|repr]; cbn [foldl omap router_item snd fst].
    + rewrite dict_set_fresh.
      * rewrite IH; [by rewrite <- app_assoc|done|].
        intros k Hk. rewrite map_app in Hk.
        apply elem_of_app in Hk as [Hk|Hk]; [by apply Hrest|].
        simpl in Hk. apply list_elem_of_singleton in Hk. by subst k.
      * intros Hin. apply (Hdisj name Hin). simpl. by left.
    + by apply IH.
    + by apply IH.
Qed.

(** X5. In a module whose attribute names are distinct, the router
    finder returns the attributes that hold a router, in the order of
    declaration; the registrar works on the first of them and tests the
    decorators against its name. *)
Theorem find_routers_in_module_declared m :
  NoDup (map fst (mod_vars m)) ->
  find_routers_in_module m = omap router_item (mod_vars m)
  /\ forall pre name ref post,
      mod_vars m = pre ++ (name, APIRouter ref) :: post ->
      Forall (fun item => router_item item = None) pre ->
      forall raises methods args kwargs (σ : store),
        register_functions_as_routes raises m methods args kwargs σ
        = register_members raises m name ref methods args kwargs
            (getmembers m) σ.
Proof.
  intros Hnd.
  assert (Hfind : find_routers_in_module m = omap router_item (mod_vars m)).
  { unfold find_routers_in_module. rewrite find_routers_fold; [done|done|].
    intros k Hk. by apply elem_of_nil in Hk. }
  split; [done|].
  intros pre name ref post Hvars Hpre raises methods args kwargs σ.
  apply (register_functions_as_routes_members _ _ _ _ _ _ name ref
           (omap router_item post)).
  rewrite Hfind, Hvars, omap_app.
  assert (omap router_item pre = []) as ->; [|done].
  clear -Hpre. induction Hpre as [|x pre Hx _ IH]; [done|].
  simpl. by rewrite Hx.
Qed.

Lemma find_routers_in_module_declared_witness :
  find_routers_in_module mixed = omap router_item (mod_vars mixed)
  /\ forall raises methods args kwargs (σ : store),
      register_functions_as_routes raises mixed methods args kwargs σ
      = register_members raises mixed "router" 0 methods args kwargs
          (getmembers mixed) σ.
Proof.
  destruct (find_routers_in_module_declared mixed) as [Hfind Hfirst].
  - apply (bool_decide_unpack _). vm_compute. reflexivity.
  - split; [exact Hfind|].
    apply (Hfirst [("imported", CoroutineFunction imported);
                   ("limit", Object "10")]
             "router" 0
             [("fetch_a", CoroutineFunction fetch_a); ("admin", APIRouter 1)]).
    + reflexivity.
    + repeat constructor.
Defined.

(** * Further properties of the decorator extractor *)

Lemma find_from_absent s sub i :
  (forall j, j <= length s -> Str.startswith (drop j s) sub = false) ->
  Str.find_from s sub i = (-1)%Z.
Proof.
  revert i. induction s as [|c s IH]; intros i Habs.
  - pose proof (Habs 0 ltac:(done)) as H0.
    change (drop 0 (@nil ascii)) with (@nil ascii) in H0.
    rewrite find_from_unfold. by rewrite H0.
  - rewrite find_from_unfold.
    pose proof (Habs 0 ltac:(simpl; lia)) as H0.
    change (drop 0 (c :: s)) with (c :: s) in H0. rewrite H0.
    apply IH. intros j Hj. apply (Habs (S j)). simpl. lia.
Qed.

(** X6. When the source has no occurrence of the keyword followed by a
    space, the extractor drops the last character of the source and
    returns the marked lines of all the rest, body included. *)
Theorem get_decorator_lines_no_keyword fn source :
  fn_source fn = Some source ->
  (forall j, j <= length source ->
             Str.startswith (drop j source) "def " = false) ->
  get_decorator_lines fn
  = Ok (marked_lines (take (length source - 1) source)).
Proof.
  intros Hsrc Habs. unfold get_decorator_lines, getsource. rewrite Hsrc.
  unfold Str.find. rewrite find_from_absent by done.
  unfold Str.slice_to. cbn [Z.ltb Z.compare].
  replace (Z.to_nat (Z.of_nat (length source) + -1)) with (length source - 1)
    by lia.
  rewrite filter_strip. fold (marked_lines (Str.strip (take (length source - 1) source))).
  by rewrite marked_lines_strip.
Qed.

Lemma get_decorator_lines_no_keyword_witness :
  get_decorator_lines tabbed
  = Ok (marked_lines
          (take (37 - 1)
             ("@cache" ++ [lf] ++ "async" ++ [tab] ++ "def" ++ [tab]
              ++ "tabbed():" ++ [lf] ++ [tab] ++ "return" ++ [tab] ++ "6"
              ++ [lf]))).
Proof.
  apply (get_decorator_lines_no_keyword tabbed
           ("@cache" ++ [lf] ++ "async" ++ [tab] ++ "def" ++ [tab]
            ++ "tabbed():" ++ [lf] ++ [tab] ++ "return" ++ [tab] ++ "6"
            ++ [lf])).
  - reflexivity.
  - intros j Hj. cbn in Hj.
    do 38 (destruct j as [|j]; [reflexivity|]). lia.
Defined.

(** * Further properties of the decorator parser *)

(** X7. The parser returns a record with a name exactly when the line,
    once every leading marker is removed, begins with a word character;
    in every other case it returns the bare pair. *)
Theorem parse_decorator_line_record_iff line :
  (exists name args, parse_decorator_line line = SimpleNamespace name args)
  <-> exists c rest,
        Str.lstrip_chars line "@" = c :: rest /\ Re.isword c = true.
Proof.
  split.
  - intros (name & args & Hparse).
    destruct (Str.lstrip_chars line "@") as [|c rest] eqn:Hdeco.
    + destruct (unmatched_line_tuple line) as [Htuple _];
        [by rewrite Hdeco|congruence].
    + exists c, rest. split; [done|].
      destruct (Re.isword c) eqn:Hc; [done|].
      destruct (unmatched_line_tuple line) as [Htuple _];
        [by rewrite Hdeco|congruence].
  - intros (c & rest & Hdeco & Hc). apply matched_line_namespace.
    rewrite Hdeco. simpl. by rewrite Hc.
Qed.

Lemma parse_decorator_line_record_iff_witness :
  exists name args, parse_decorator_line "@cache" = SimpleNamespace name args.
Proof.
  apply (proj2 (parse_decorator_line_record_iff "@cache")).
  exists "c"%char, "ache". split; reflexivity.
Defined.

Lemma star_loop_keeps n step k fuel :
  (forall k', keeps n k' -> keeps n (fun s g => step s g k')) ->
  keeps n k ->
  keeps n (Re.star_loop step k fuel).
Proof.
  intros Hstep Hk. induction fuel as [|fuel IH]; intros s g g'; simpl.
  - apply Hk.
  - destruct (step s g _) as [g1|] eqn:Hs.
    + intros [= <-]. revert Hs. apply (Hstep _).
      intros s1 g2 g3. destruct (length s1 <? length s); [apply IH|done].
    + apply Hk.
Qed.

Lemma run_keeps n r :
  no_group n r ->
  forall k, keeps n k -> keeps n (fun s g => Re.run r s g k).
Proof.
  induction r as [p|r1 IH1 r2 IH2|r1 IH|r1 IH|i r1 IH]; simpl; intros Hno k Hk.
  - intros [|c s] g g'; [done|]. destruct (p c); [apply Hk|done].
  - destruct Hno as [H1 H2]. apply (IH1 H1). by apply IH2.
  - intros s g g'. apply star_loop_keeps; [|done].
    intros k' Hk'. by apply IH.
  - intros s g g'.
    destruct (Re.run r1 s g k) as [g1|] eqn:Hr.
    + intros [= <-]. revert Hr. by apply (IH Hno k Hk).
    + apply Hk.
  - destruct Hno as [Hi Hno]. intros s g g' Hrun.
    pose proof (IH Hno
      (fun s' g' => k s' (<[i := take (length s - length s') s]> g'))) as Hkeep.
    revert Hrun. apply Hkeep.
    intros s1 g1 g2 Hk1. apply Hk in Hk1.
    by rewrite Hk1, lookup_insert_ne.
Qed.

Lemma re_match_name name rest :
  dotted_identifier name = true ->
  stops Re.isword_or_dot rest ->
  exists groups,
    Re.re_match Re.decorator_pattern (name ++ rest) = Some groups
    /\ groups !! 1 = Some name.
Proof.
  intros Hname Hstop. destruct name as [|c name]; [done|].
  pose proof Hname as Hdot.
  apply andb_true_iff in Hname as [Hc Hrest].
  destruct (re_match_some c (name ++ rest) Hc) as [groups Hsome].
  exists groups. split; [done|].
  revert Hsome. unfold Re.re_match, Re.decorator_pattern.
  rewrite run_cat, run_group, run_cat, run_chr_cons, Hc, run_star_chr.
  match goal with
  | |- star_chr _ ?k _ _ = _ -> _ => set (K := k)
  end.
  destruct (K rest ∅) as [g'|] eqn:HK.
  - rewrite (star_chr_greedy _ K name rest ∅ g') by done.
    intros [= <-]. revert HK. subst K. cbv beta.
    rewrite take_length_diff_cons. intros Hrun.
    eapply (run_keeps 1) in Hrun.
    + by rewrite Hrun, lookup_insert_eq.
    + simpl. repeat split; done.
    + by intros s g g0 [= <-].
  - exfalso. subst K. cbv beta in HK.
    rewrite run_cat, run_star_chr in HK.
    match type of HK with
    | star_chr ?p ?k ?s ?g = None =>
        destruct (star_chr_total p k s g) as [g' Hg]; [|congruence]
    end.
    intros s2 g2. rewrite run_opt.
    by destruct (Re.run (Re.Group 2 _) s2 g2 _).
Qed.

(** X8. Whatever follows it on the line, the name of the record is the
    longest run of word characters and dots after the marker. *)
Theorem parse_decorator_line_name name rest :
  dotted_identifier name = true ->
  stops Re.isword_or_dot rest ->
  exists args,
    parse_decorator_line ("@" ++ name ++ rest) = SimpleNamespace name args.
Proof.
  intros Hname Hstop. unfold parse_decorator_line.
  rewrite lstrip_at_name by done.
  destruct (re_match_name name rest Hname Hstop) as (groups & Hm & H1).
  rewrite Hm. cbv beta iota zeta. unfold str in *. rewrite H1. by eexists.
Qed.

Lemma parse_decorator_line_name_witness :
  exists args,
    parse_decorator_line ("@" ++ "app.routes" ++ "[0](prefix) # v2")
    = SimpleNamespace "app.routes" args.
Proof.
  apply (parse_decorator_line_name "app.routes" "[0](prefix) # v2");
    reflexivity.
Defined.

Lemma parse_call name ws inner :
  dotted_identifier name = true ->
  forallb Str.isspace ws = true ->
  forallb Re.isdot inner = true ->
  parse_decorator_line ("@" ++ name ++ ws ++ "(" ++ inner ++ ")")
  = SimpleNamespace name
      match inner with
      | [] => []
      | _ :: _ => map Str.strip (Str.split inner ","%char)
      end.
Proof.
  intros Hname Hws Hinner. unfold parse_decorator_line.
  rewrite lstrip_at_name, re_match_call by done.
  rewrite lookup_insert_ne, lookup_insert_ne, lookup_insert_eq by done.
  rewrite lookup_insert_ne, lookup_insert_eq by done.
  by destruct inner.
Qed.

Lemma length_split s sep :
  length (Str.split s sep) = S (count_char sep s).
Proof.
  unfold count_char. induction s as [|c s IH]; [done|]. simpl.
  destruct (Ascii.eqb_spec c sep) as [->|Hne].
  - rewrite Ascii.eqb_refl. simpl. by rewrite IH.
  - destruct (Ascii.eqb_spec sep c) as [->|_]; [done|].
    destruct (Str.split s sep) as [|l ls]; [done|]. by rewrite <- IH.
Qed.

Lemma strip_elem a x : x ∈ Str.strip a -> x ∈ a.
Proof.
  intros Hin.
  destruct (rstrip_split a) as (wr & _ & Ha).
  destruct (lstrip_split (Str.rstrip a)) as (wl & _ & Hr).
  rewrite Ha, Hr. fold (Str.strip a).
  apply elem_of_app. left. apply elem_of_app. by right.
Qed.

(** X9. The arguments are cut at every comma of the parenthesized text,
    also at commas inside brackets or quotes: a non-empty text with [n]
    commas gives [n + 1] arguments, none of which contains a comma or
    has white space at its ends. *)
Theorem parse_args_lexical name ws inner :
  dotted_identifier name = true ->
  forallb Str.isspace ws = true ->
  forallb Re.isdot inner = true ->
  inner <> [] ->
  exists args,
    parse_decorator_line ("@" ++ name ++ ws ++ "(" ++ inner ++ ")")
    = SimpleNamespace name args
    /\ length args = S (count_char ","%char inner)
    /\ Forall (fun arg => (","%char ∉ arg) /\ Str.strip arg = arg) args.
Proof.
  intros Hname Hws Hinner Hne.
  rewrite parse_call by done.
  destruct inner as [|c inner]; [done|].
  eexists. split; [done|]. split.
  - by rewrite length_map, length_split.
  - apply Forall_forall. intros arg Hin.
    apply list_elem_of_fmap in Hin as (piece & -> & Hpiece).
    split; [|apply strip_strip].
    intros Hcomma. apply strip_elem in Hcomma.
    pose proof (split_no_sep (c :: inner) ","%char) as Hall.
    rewrite Forall_forall in Hall. by apply (Hall piece).
Qed.

Lemma parse_args_lexical_witness :
  exists args,
    parse_decorator_line
      ("@" ++ "router.get" ++ [] ++ "(" ++ "tags=[a, b], n=1" ++ ")")
    = SimpleNamespace "router.get" args
    /\ length args = S (count_char ","%char "tags=[a, b], n=1")
    /\ Forall (fun arg => (","%char ∉ arg) /\ Str.strip arg = arg) args.
Proof.
  apply (parse_args_lexical "router.get" [] "tags=[a, b], n=1");
    [reflexivity|reflexivity|reflexivity|discriminate].
Defined.

(** * Further properties of the path *)

Lemma hyphenate_inj c d :
  c <> "-"%char -> d <> "-"%char -> hyphenate c = hyphenate d -> c = d.
Proof.
  unfold hyphenate. intros Hc Hd.
  destruct (Ascii.eqb_spec c "_"%char) as [->|Hc'],
           (Ascii.eqb_spec d "_"%char) as [->|Hd']; congruence.
Qed.

Lemma map_hyphenate_inj (a b : str) :
  "-"%char ∉ a -> "-"%char ∉ b ->
  map hyphenate a = map hyphenate b -> a = b.
Proof.
  revert b. induction a as [|c a IH]; intros [|d b] Ha Hb Heq;
    try done.
  apply not_elem_of_cons in Ha as [Hc Ha].
  apply not_elem_of_cons in Hb as [Hd Hb].
  simpl in Heq. injection Heq as Hcd Heq.
  f_equal; [by apply hyphenate_inj|by apply IH].
Qed.

(** X10. The path of a route has no underscore, and two functions whose
    names have no hyphen (as every name written in a definition) get the
    same path only when their names are the same. *)
Theorem route_path_collision_free :
  (forall handler methods args kwargs,
      "_"%char ∉ route_path (route_for handler methods args kwargs))
  /\ (forall f1 f2 methods1 methods2 args1 args2 kwargs1 kwargs2,
        "-"%char ∉ fn_name f1 ->
        "-"%char ∉ fn_name f2 ->
        route_path (route_for f1 methods1 args1 kwargs1)
        = route_path (route_for f2 methods2 args2 kwargs2) ->
        fn_name f1 = fn_name f2).
Proof.
  split.
  - intros handler methods args kwargs. rewrite route_for_path.
    intros Hin. apply elem_of_cons in Hin as [Hin|Hin]; [done|].
    apply list_elem_of_fmap in Hin as (c & Hc & _).
    by apply (hyphenate_no_underscore c).
  - intros f1 f2 methods1 methods2 args1 args2 kwargs1 kwargs2 H1 H2.
    rewrite !route_for_path. intros Heq. injection Heq as Heq.
    by apply map_hyphenate_inj.
Qed.

Lemma route_path_collision_free_witness :
  ("_"%char ∉ route_path (route_for x_y_z default_methods [] []))
  /\ (route_path (route_for x_y_z default_methods [] [])
      = route_path (route_for x_y_z None [] []) ->
      fn_name x_y_z = fn_name x_y_z).
Proof.
  destruct route_path_collision_free as [Hno Hinj]. split.
  - apply Hno.
  - apply Hinj; apply (bool_decide_unpack _); vm_compute; reflexivity.
Defined.

(** * Further properties of the iteration order *)

Lemma leb_total a b : Str.leb a b = false -> Str.leb b a = true.
Proof.
  revert b. induction a as [|x a IH]; intros [|y b]; simpl; try done.
  destruct (N.ltb_spec (Str.ord x) (Str.ord y)),
           (N.ltb_spec (Str.ord y) (Str.ord x)); try done; try lia.
  apply IH.
Qed.

Lemma leb_trans a b c :
  Str.leb a b = true -> Str.leb b c = true -> Str.leb a c = true.
Proof.
  revert b c. induction a as [|x a IH]; intros [|y b] [|z c]; simpl;
    try done.
  destruct (N.ltb_spec (Str.ord x) (Str.ord y)),
           (N.ltb_spec (Str.ord y) (Str.ord x)),
           (N.ltb_spec (Str.ord y) (Str.ord z)),
           (N.ltb_spec (Str.ord z) (Str.ord y)),
           (N.ltb_spec (Str.ord x) (Str.ord z)),
           (N.ltb_spec (Str.ord z) (Str.ord x));
    try done; try lia.
  apply IH.
Qed.

Lemma insert_by_name_ascending {A} (x : str * A) l :
  ascending l -> ascending (insert_by_name x l).
Proof.
  induction l as [|y l IH]; simpl; [done|]. intros [Hy Hl].
  destruct (Str.leb x.1 y.1) eqn:Hxy; simpl.
  - split; [|done]. constructor; [done|].
    eapply Forall_impl; [exact Hy|]. intros z Hz. by eapply leb_trans.
  - split; [|by apply IH].
    rewrite insert_by_name_perm. constructor; [by apply leb_total|done].
Qed.

Lemma sort_by_name_ascending {A} (l : list (str * A)) :
  ascending (sort_by_name l).
Proof.
  induction l as [|x l IH]; simpl; [done|]. by apply insert_by_name_ascending.
Qed.

Lemma ascending_lookup {A} (l : list (str * A)) i j a b :
  ascending l -> i < j -> l !! i = Some a -> l !! j = Some b ->
  Str.leb a.1 b.1 = true.
Proof.
  revert i j. induction l as [|x l IH]; intros i j Hasc Hij Hi Hj; [done|].
  destruct Hasc as [Hx Hl]. destruct j as [|j]; [lia|].
  destruct i as [|i]; simpl in Hi, Hj.
  - injection Hi as <-. rewrite Forall_forall in Hx. apply Hx.
    by eapply list_elem_of_lookup_2.
  - apply (IH i j); [done|lia|done|done].
Qed.

(** X11. The registrar goes through the coroutine attributes of the
    module, each once per name it is bound under, in ascending order of
    these names by code point, whatever the order of declaration. *)
Theorem getmembers_ascending m :
  (forall i j a b,
      i < j ->
      getmembers m !! i = Some a ->
      getmembers m !! j = Some b ->
      Str.leb a.1 b.1 = true)
  /\ (forall name fn,
        (name, fn) ∈ getmembers m
        <-> (name, CoroutineFunction fn) ∈ mod_vars m)
  /\ length (getmembers m)
     = length (List.filter
                 (fun item : str * value =>
                    match item.2 with CoroutineFunction _ => true | _ => false end)
                 (mod_vars m)).
Proof.
  split; [|split].
  - intros i j a b. apply ascending_lookup. apply sort_by_name_ascending.
  - apply getmembers_elem.
  - unfold getmembers. rewrite sort_by_name_perm.
    induction (mod_vars m) as [|[name v] vars IH]; [done|].
    destruct v; simpl; [exact IH|f_equal; exact IH|exact IH].
Qed.

Lemma getmembers_ascending_witness :
  Str.leb ("fetch_a", fetch_a).1 ("x_y_z", x_y_z).1 = true.
Proof.
  destruct (getmembers_ascending three) as [Hasc _].
  apply (Hasc 0 1 ("fetch_a", fetch_a) ("x_y_z", x_y_z));
    [lia|reflexivity|reflexivity].
Defined.

(** * Further properties of the decorator test *)

Lemma any_name_startswith_tuple before line after router_name :
  stops Re.isword (Str.lstrip_chars line "@") ->
  Forall (fun l =>
            forall name args,
              parse_decorator_line l = SimpleNamespace name args ->
              Str.startswith name router_name = false) before ->
  any_name_startswith
    (map parse_decorator_line (before ++ line :: after)) router_name
  = Raise AttributeError.
Proof.
  intros Hline Hbefore. induction Hbefore as [|l before Hl _ IH]; simpl.
  - by destruct (unmatched_line_tuple line Hline) as [-> _].
  - destruct (parse_decorator_line l) as [name args|] eqn:Hparse; simpl;
      [|done].
    by rewrite (Hl name args).
Qed.

Lemma register_raises_at_member raises m methods args kwargs σ name fn e0 :
  (name, fn) ∈ getmembers m ->
  (forall router_name router routers,
      find_routers_in_module m = (router_name, router) :: routers ->
      eligible m router_name (name, fn) = Raise e0) ->
  exists e σ',
    register_functions_as_routes raises m methods args kwargs σ
    = (Raise e, σ').
Proof.
  intros Hin Hel.
  destruct (find_routers_in_module m) as [|[router_name router] routers]
    eqn:Hfind.
  - exists StopIteration, σ. unfold register_functions_as_routes.
    by rewrite Hfind.
  - destruct (register_functions_as_routes_run raises m methods args kwargs
                σ _ _ _ Hfind)
      as (pre & post & σ' & Hmem & Hpre & _ & _ & Hpost).
    destruct post as [|x post].
    + exfalso. rewrite Hmem, app_nil_r in Hin.
      rewrite Forall_forall in Hpre.
      destruct (Hpre _ Hin) as [H|[H _]];
        rewrite (Hel _ _ _ eq_refl) in H; discriminate H.
    + destruct Hpost as (e & _ & Hrun). by exists e, σ'.
Qed.

(** X12. A coroutine member with a decorator line that does not begin
    with a word character after the marker, and before which no line
    parses to a name that starts with the name of the router, makes the
    test raise [AttributeError], whatever its module and its attribute
    name; a call on its module raises. *)
Theorem unmatched_decorator_aborts raises m methods args kwargs σ
    name fn before line after :
  (name, fn) ∈ getmembers m ->
  get_decorator_lines fn = Ok (before ++ line :: after) ->
  stops Re.isword (Str.lstrip_chars line "@") ->
  (forall router_name router routers,
      find_routers_in_module m = (router_name, router) :: routers ->
      Forall (fun l =>
                forall name args,
                  parse_decorator_line l = SimpleNamespace name args ->
                  Str.startswith name router_name = false) before) ->
  (forall router_name router routers,
      find_routers_in_module m = (router_name, router) :: routers ->
      eligible m router_name (name, fn) = Raise AttributeError)
  /\ exists e σ',
      register_functions_as_routes raises m methods args kwargs σ
      = (Raise e, σ').
Proof.
  intros Hin Hlines Hline Hbefore.
  assert (Hel : forall router_name router routers,
             find_routers_in_module m = (router_name, router) :: routers ->
             eligible m router_name (name, fn) = Raise AttributeError).
  { intros router_name router routers Hfind.
    unfold eligible. rewrite (get_decorators_lines _ _ Hlines).
    by rewrite any_name_startswith_tuple by eauto. }
  split; [done|]. by eapply register_raises_at_member.
Qed.

Lemma unmatched_decorator_aborts_witness :
  (forall router_name router routers,
      find_routers_in_module tracing = (router_name, router) :: routers ->
      eligible tracing router_name ("traced", traced) = Raise AttributeError)
  /\ exists e σ',
      register_functions_as_routes accept_all tracing default_methods [] [] ∅
      = (Raise e, σ').
Proof.
  apply (unmatched_decorator_aborts accept_all tracing default_methods [] [] ∅
           "traced" traced [] "@(trace)" []).
  - left.
  - vm_compute. reflexivity.
  - reflexivity.
  - intros. constructor.
Defined.

(** * Decorators that span several lines *)

Lemma star_chr_none p k s g :
  (forall j, j <= length s -> k (drop j s) g = None) ->
  star_chr p k s g = None.
Proof.
  induction s as [|c s IH]; intros Hk.
  - exact (Hk 0 ltac:(done)).
  - simpl. pose proof (Hk 0 ltac:(simpl; lia)) as H0.
    change (drop 0 (c :: s)) with (c :: s) in H0.
    rewrite IH, H0; [by destruct (p c)|].
    intros j Hj. apply (Hk (S j)). simpl. lia.
Qed.

Lemma drop_head_elem {A} (l : list A) j x rest :
  drop j l = x :: rest -> x ∈ l.
Proof.
  intros Hdrop. rewrite <- (take_drop j l), Hdrop.
  apply elem_of_app. right. by left.
Qed.

Lemma re_match_unclosed name ws inner :
  dotted_identifier name = true ->
  forallb Str.isspace ws = true ->
  ")"%char ∉ inner ->
  Re.re_match Re.decorator_pattern (name ++ ws ++ "(" ++ inner)
  = Some (<[1 := name]> ∅).
Proof.
  intros Hname Hws Hinner. destruct name as [|c rest]; [done|].
  apply andb_true_iff in Hname as [Hc Hrest].
  unfold Re.re_match, Re.decorator_pattern.
  rewrite run_cat, run_group, run_cat. cbn [app].
  rewrite run_chr_cons, Hc, run_star_chr.
  apply star_chr_greedy; [done|by apply word_stops_at_space|].
  cbv beta. rewrite take_length_diff_cons.
  rewrite run_cat, run_star_chr.
  apply star_chr_greedy; [done|done|].
  cbv beta. rewrite run_opt, run_group, run_cat, run_chr_cons.
  cbn [Ascii.eqb Bool.eqb]. rewrite run_cat, run_group, run_star_chr.
  rewrite star_chr_none; [done|].
  intros j Hj. cbv beta.
  destruct (drop j inner) as [|d tail] eqn:Hdrop; [done|].
  rewrite run_chr_cons.
  destruct (Ascii.eqb_spec ")"%char d) as [<-|_]; [|done].
  destruct Hinner. by eapply drop_head_elem.
Qed.

(** X13. When the parenthesis opened after the name is not closed on the
    line, as on the first line of a decorator written over several lines,
    the record has the name and no argument. *)
Theorem parse_unclosed_parenthesis name ws inner :
  dotted_identifier name = true ->
  forallb Str.isspace ws = true ->
  ")"%char ∉ inner ->
  parse_decorator_line ("@" ++ name ++ ws ++ "(" ++ inner)
  = SimpleNamespace name [].
Proof.
  intros Hname Hws Hinner. unfold parse_decorator_line.
  rewrite lstrip_at_name, re_match_unclosed by done.
  by rewrite lookup_insert_eq, lookup_insert_ne, lookup_empty.
Qed.

Lemma parse_unclosed_parenthesis_witness :
  parse_decorator_line ("@" ++ "router.get" ++ [] ++ "(" ++ "path, tags=[x],")
  = SimpleNamespace "router.get" [].
Proof.
  apply (parse_unclosed_parenthesis "router.get" [] "path, tags=[x],");
    [reflexivity|reflexivity|].
  apply (bool_decide_unpack _). vm_compute. reflexivity.
Defined.
